(** * A shallow embedding of the HTTP request-head parser of [parse.cpp]

    The development follows the source file top to bottom: the result
    enumeration, the [Request] record, the two string helpers
    ([string_split], [split_headers]) and the byte loop of [Parser::parse].

    - [std::string] is a list of 8-bit characters ([list ascii]).
    - [std::map<std::string, std::string>] is a [gmap]; [emplace] inserts
      only when the key is absent.
    - [size_t] indices are [nat]: every index the loop computes is at most
      [len + 2], and [len] is bounded by the size of a [std::string], so
      the 64-bit wrap-around is never reached.
    - [parse] mutates the caller's [Request&]; the model returns the record
      as the caller sees it after the call, together with the result code.
    - every [data[k]] goes through [at_], which records the index [k] and
      is undefined when [k] lies beyond the terminating NUL of [data]. *)

From stdpp Require Import gmap strings list fin_maps.
From Stdlib Require Import Ascii.

(** ** Characters and strings *)

Abbreviation str := (list ascii).

Definition SPACE : ascii := " "%char.
Definition CR : ascii := "013"%char.
Definition LF : ascii := "010"%char.
Definition NUL : ascii := "000"%char.
Definition CRLF : str := [CR; LF].
Definition COLON : ascii := ":"%char.
(** The literal [": "] of [split_headers]. *)
Definition SEP : str := [COLON; SPACE].

(** [c == d] on [char]. *)
Definition ceq (c d : ascii) : bool := bool_decide (c = d).

(** First position of [d] in [s], scanning from the front. *)
Fixpoint find0 (d s : str) : option nat :=
  if bool_decide (d `prefix_of` s) then Some 0
  else match s with
       | [] => None
       | _ :: s' => S <$> find0 d s'
       end.

(** [s.find(d, pos)]: the least [p >= pos] at which [d] occurs in [s];
    [None] is [std::string::npos]. *)
Definition find (s d : str) (pos : nat) : option nat :=
  if bool_decide (pos ≤ length s)
  then (λ p, pos + p) <$> find0 d (drop pos s)
  else None.

(** [s.substr(pos, n)] and [s.substr(pos)].  Both throw when
    [pos > s.size()]; the callers below only pass positions returned by
    [find] (plus the delimiter length), which are in range, see
    [find_bound]. *)
Definition substr (s : str) (pos n : nat) : str := take n (drop pos s).
Definition substr_from (s : str) (pos : nat) : str := drop pos s.

(** ** The result enumeration and the request record *)

Inductive ParseResult :=
  | success
  | method_too_long
  | url_too_long
  | version_too_long
  | invalid_method
  | invalid_url
  | invalid_version
  | invalid_format
  | invalid_headers
  | invalid_crlf.

Global Instance ParseResult_eq_dec : EqDecision ParseResult.
Proof. solve_decision. Defined.

Record Request := {
  method : str;
  url : str;
  version : str;
  headers : gmap str str;
}.

(** [Request req;] as in [main]: three empty strings and an empty map. *)
Definition Request_new : Request :=
  {| method := []; url := []; version := []; headers := ∅ |}.

Definition max_method_len : nat := 32.
Definition max_url_len : nat := 1024.
Definition max_version_len : nat := 32.

(** [req.method += c] and its siblings. *)
Definition push_method (q : Request) (c : ascii) : Request :=
  {| method := method q ++ [c]; url := url q;
     version := version q; headers := headers q |}.
Definition push_url (q : Request) (c : ascii) : Request :=
  {| method := method q; url := url q ++ [c];
     version := version q; headers := headers q |}.
Definition push_version (q : Request) (c : ascii) : Request :=
  {| method := method q; url := url q;
     version := version q ++ [c]; headers := headers q |}.

(** [m.emplace(k, v)]: no effect when [k] is already a key of [m]. *)
Definition emplace (k v : str) (m : gmap str str) : gmap str str :=
  match m !! k with
  | Some _ => m
  | None => <[k := v]> m
  end.

Definition emplace_header (q : Request) (k v : str) : Request :=
  {| method := method q; url := url q;
     version := version q; headers := emplace k v (headers q) |}.

(** ** [Parser::string_split] *)

(** The [while (end != npos)] loop.  [fuel] bounds the number of
    iterations; running out of it is reported as [None]. *)
Fixpoint string_split_loop (fuel : nat) (s delimiter : str)
    (tokens : list str) (start : nat) (end_ : option nat) : option (list str) :=
  match end_ with
  | None => Some (tokens ++ [substr_from s start])
  | Some e =>
      match fuel with
      | 0 => None
      | S fuel' =>
          let tokens := tokens ++ [substr s start (e - start)] in
          let start := e + length delimiter in
          string_split_loop fuel' s delimiter tokens start (find s delimiter start)
      end
  end.

Definition string_split (s delimiter : str) : option (list str) :=
  string_split_loop (S (length s)) s delimiter [] 0 (find s delimiter 0).

(** ** [Parser::split_headers] *)

(** The range-for over the tokens; the record is updated in place, so the
    entries inserted before a malformed token stay in it. *)
Fixpoint split_headers_loop (tokens : list str) (q : Request) : bool * Request :=
  match tokens with
  | [] => (true, q)
  | token :: rest =>
      match find token SEP 0 with
      | None => (false, q)
      | Some iter =>
          let key := substr token 0 iter in
          let value := substr_from token (iter + 2) in
          split_headers_loop rest (emplace_header q key value)
      end
  end.

Definition split_headers (s : str) (q : Request) : option (bool * Request) :=
  tokens ← string_split s CRLF;
  Some (split_headers_loop tokens q).

(** ** Reading the buffer *)

(** [data[k]] on a [const std::string&]: the character at [k], the
    terminating NUL at [k = data.size()], undefined beyond. *)
Definition string_at (data : str) (k : nat) : option ascii :=
  match data !! k with
  | Some c => Some c
  | None => if bool_decide (k = length data) then Some NUL else None
  end.

(** Computations that read the buffer: the list of indices read so far is
    threaded through, [None] is undefined behaviour. *)
Definition Rd (A : Type) : Type := list nat → option A * list nat.

Definition rd_ret {A} (a : A) : Rd A := λ log, (Some a, log).

Definition rd_bind {A B} (m : Rd A) (k : A → Rd B) : Rd B :=
  λ log, match m log with
         | (Some a, log') => k a log'
         | (None, log') => (None, log')
         end.

Definition at_ (data : str) (k : nat) : Rd ascii :=
  λ log, (string_at data k, log ++ [k]).

Notation "'let*' x := m 'in' k" := (rd_bind m (λ x, k))
  (at level 10, x name, m at level 100, k at level 200, only parsing).

(** ** [Parser::parse] *)

Module State.
Inductive t := method | url | version | headers.
End State.

(** The locals of [parse] together with the caller's record. *)
Module Loop.
Record t := mk {
  i : nat;
  state : State.t;
  headers : str;
  stop : bool;
  req : Request;
}.
End Loop.

(** What one iteration of the loop does: go round again, or [return]. *)
Inductive Flow :=
  | Continue (s : Loop.t)
  | Return (r : ParseResult) (q : Request).

(** The body of the [while], one [case] per state. *)
Definition step (data : str) (len : nat) (s : Loop.t) : Rd Flow :=
  let '(Loop.mk i state headers stop req) := s in
  let* c := at_ data i in
  match state with
  | State.method =>
      if ceq c SPACE then
        if bool_decide (method req = []) then rd_ret (Return invalid_method req)
        else rd_ret (Continue (Loop.mk (i + 1) State.url headers stop req))
      else if ceq c CR || ceq c LF then rd_ret (Return invalid_format req)
      else if bool_decide (length (method req) = max_method_len)
           then rd_ret (Return method_too_long req)
      else rd_ret (Continue (Loop.mk (i + 1) state headers stop (push_method req c)))
  | State.url =>
      if ceq c SPACE then
        if bool_decide (url req = []) then rd_ret (Return invalid_url req)
        else rd_ret (Continue (Loop.mk (i + 1) State.version headers stop req))
      else if ceq c CR || ceq c LF then rd_ret (Return invalid_format req)
      else if bool_decide (length (url req) = max_url_len)
           then rd_ret (Return url_too_long req)
      else rd_ret (Continue (Loop.mk (i + 1) state headers stop (push_url req c)))
  | State.version =>
      if ceq c CR then
        if bool_decide (version req = []) then rd_ret (Return invalid_format req)
        else if bool_decide (len ≤ i + 1) then rd_ret (Return invalid_format req)
        else
          let* c1 := at_ data (i + 1) in
          if negb (ceq c1 LF) then rd_ret (Return invalid_crlf req)
          else rd_ret (Continue (Loop.mk (i + 2) State.headers headers stop req))
      else if bool_decide (length (version req) = max_version_len)
           then rd_ret (Return version_too_long req)
      else rd_ret (Continue (Loop.mk (i + 1) state headers stop (push_version req c)))
  | State.headers =>
      if ceq c CR then
        (* i + 1 >= len || data[i + 1] != LF *)
        let* bad :=
          (if bool_decide (len ≤ i + 1) then rd_ret true
           else let* c1 := at_ data (i + 1) in rd_ret (negb (ceq c1 LF))) in
        if bad : bool then rd_ret (Return invalid_format req)
        else
          (* i + 2 < len && data[i + 2] == CR && i + 3 < len && data[i + 3] == LF *)
          let* blank :=
            (if bool_decide (i + 2 < len) then
               let* c2 := at_ data (i + 2) in
               if ceq c2 CR then
                 if bool_decide (i + 3 < len) then
                   let* c3 := at_ data (i + 3) in rd_ret (ceq c3 LF)
                 else rd_ret false
               else rd_ret false
             else rd_ret false) in
          if blank : bool then rd_ret (Continue (Loop.mk i state headers true req))
          else rd_ret (Continue (Loop.mk (i + 2) state (headers ++ CRLF) stop req))
      else if ceq c LF then rd_ret (Return invalid_headers req)
      else rd_ret (Continue (Loop.mk (i + 1) state (headers ++ [c]) stop req))
  end.

(** How a call of [parse] ends. *)
Inductive Outcome :=
  | Returned (r : ParseResult) (q : Request)
  | Undefined     (* a read beyond the buffer *)
  | OutOfFuel.    (* the model's iteration bound was too small *)

(** The code after the loop. *)
Definition finish (s : Loop.t) : Outcome :=
  match split_headers (Loop.headers s) (Loop.req s) with
  | None => OutOfFuel
  | Some (false, q) => Returned invalid_headers q
  | Some (true, q) => Returned success q
  end.

(** [while (i < len && !stop) { ... }] followed by [finish]. *)
Fixpoint loop (fuel : nat) (data : str) (len : nat) (s : Loop.t)
    (log : list nat) : Outcome * list nat :=
  if bool_decide (Loop.i s < len) && negb (Loop.stop s) then
    match fuel with
    | 0 => (OutOfFuel, log)
    | S fuel' =>
        match step data len s log with
        | (None, log') => (Undefined, log')
        | (Some (Return r q), log') => (Returned r q, log')
        | (Some (Continue s'), log') => loop fuel' data len s' log'
        end
    end
  else (finish s, log).

(** The locals as initialised on entry. *)
Definition init (req : Request) : Loop.t :=
  Loop.mk 0 State.method [] false req.

(** [parse(data, len, req)]: the outcome and the indices of [data] read. *)
Definition parse (data : str) (len : nat) (req : Request) : Outcome * list nat :=
  loop len data len (init req) [].

(** The result code and record of a call, and the indices it read. *)
Definition outcome (data : str) (len : nat) (req : Request) : Outcome :=
  (parse data len req).1.
Definition reads (data : str) (len : nat) (req : Request) : list nat :=
  (parse data len req).2.

(** The loop with exactly the fuel it needs from [st] on. *)
Definition run (data : str) (len : nat) (st : Loop.t) (log : list nat)
    : Outcome * list nat :=
  loop (len - Loop.i st) data len st log.

(** What the loop maintains about the record and the header text: the
    three tokens stay within their limits, and a state is only entered
    once the tokens before it are non-empty. *)
Definition Inv (st : Loop.t) : Prop :=
  let q := Loop.req st in
  length (method q) ≤ max_method_len ∧
  length (url q) ≤ max_url_len ∧
  length (version q) ≤ max_version_len ∧
  match Loop.state st with
  | State.method => Loop.headers st = []
  | State.url => method q ≠ [] ∧ Loop.headers st = []
  | State.version => method q ≠ [] ∧ url q ≠ [] ∧ Loop.headers st = []
  | State.headers => method q ≠ [] ∧ url q ≠ [] ∧ version q ≠ []
  end.

(** [q'] holds everything [q] holds: each string of [q] is a prefix of the
    one in [q'], and every header entry of [q] is an entry of [q']. *)
Definition extends (q q' : Request) : Prop :=
  method q `prefix_of` method q' ∧
  url q `prefix_of` url q' ∧
  version q `prefix_of` version q' ∧
  headers q ⊆ headers q'.

(** ** The shape of a well-formed request head *)

(** A byte that may appear in the method or the target. *)
Definition is_token (c : ascii) : Prop := c ≠ SPACE ∧ c ≠ CR ∧ c ≠ LF.

(** A byte that may appear inside a header line. *)
Definition is_text (c : ascii) : Prop := c ≠ CR ∧ c ≠ LF.

Global Instance is_token_dec c : Decision (is_token c).
Proof. unfold is_token. apply _. Defined.

Global Instance is_text_dec c : Decision (is_text c).
Proof. unfold is_text. apply _. Defined.

(** [d] occurs somewhere in [s]. *)
Definition contains (s d : str) : Prop := ∃ a b, s = a ++ d ++ b.

(** [KEY ": " VALUE]. *)
Definition header_line (kv : str * str) : str := kv.1 ++ SEP ++ kv.2.

(** The lines, each followed by CRLF. *)
Fixpoint header_block (ls : list str) : str :=
  match ls with
  | [] => []
  | l :: ls' => l ++ CRLF ++ header_block ls'
  end.

(** The lines [l :: ls] with CRLF between them. *)
Fixpoint join_crlf (l : str) (ls : list str) : str :=
  match ls with
  | [] => l
  | l' :: ls' => l ++ CRLF ++ join_crlf l' ls'
  end.

(** [METHOD SP TARGET SP VERSION CRLF (line CRLF)* CRLF]. *)
Definition request (M U V : str) (ls : list str) : str :=
  M ++ [SPACE] ++ U ++ [SPACE] ++ V ++ CRLF ++ header_block ls ++ CRLF.

(** What a key and a value of a header line may be: no CR or LF in
    either, and no [": "] inside the key. *)
Definition header_ok (kv : str * str) : Prop :=
  Forall is_text kv.1 ∧ Forall is_text kv.2 ∧ ¬ contains kv.1 SEP.

(** String literals as byte strings. *)
Definition lit (x : string) : str := String.list_ascii_of_string x.

(** ** Sample inputs *)

(** The request line used throughout the examples. *)
Definition GET_x (ls : list str) : str :=
  request (lit "GET") (lit "/x") (lit "HTTP/1.1") ls.

(** ["GET /x HTTP/1.1\r\nHost: example.com\r\n\r\n"]. *)
Definition sample_ok : str := GET_x [lit "Host: example.com"].

(** No header line at all: ["GET /x HTTP/1.1\r\n\r\n"]. *)
Definition sample_no_headers : str := GET_x [].

(** The key [a] twice. *)
Definition sample_duplicate : str := GET_x [lit "a: 1"; lit "a: 2"].

(** The key [a: b] with value [c]. *)
Definition sample_sep_in_key : str := GET_x [header_line (lit "a: b", lit "c")].

(** A request line cut off by a CR: ["GET\r"]. *)
Definition sample_cut : str := lit "GET" ++ [CR].

(** A good header line followed by one without [": "]. *)
Definition sample_bad_line : str := GET_x [lit "A: 1"; lit "X-Bad-Header"].

(** The version ended by a lone LF instead of CRLF:
    ["GET /x HTTP/1.1\nHost: a\r\nB: c\r\n\r\n"]. *)
Definition sample_lone_lf : str :=
  lit "GET /x HTTP/1.1" ++ [LF] ++ lit "Host: a" ++ CRLF
    ++ lit "B: c" ++ CRLF ++ CRLF.

(** Tokens of exactly the maximal lengths. *)
Definition M32 : str := replicate 32 "M"%char.
Definition U1024 : str := replicate 1024 "u"%char.
Definition V32 : str := replicate 32 "v"%char.

(** ** [parse_result_str] *)

(** The value of each enumerator of [ParseResult], in declaration order. *)
Definition ParseResult_code (r : ParseResult) : Z :=
  match r with
  | success => 0
  | method_too_long => 1
  | url_too_long => 2
  | version_too_long => 3
  | invalid_method => 4
  | invalid_url => 5
  | invalid_version => 6
  | invalid_format => 7
  | invalid_headers => 8
  | invalid_crlf => 9
  end.

(** The enumerator with a given value, if there is one. *)
Definition ParseResult_of_code (n : Z) : option ParseResult :=
  if (n =? 0)%Z then Some success
  else if (n =? 1)%Z then Some method_too_long
  else if (n =? 2)%Z then Some url_too_long
  else if (n =? 3)%Z then Some version_too_long
  else if (n =? 4)%Z then Some invalid_method
  else if (n =? 5)%Z then Some invalid_url
  else if (n =? 6)%Z then Some invalid_version
  else if (n =? 7)%Z then Some invalid_format
  else if (n =? 8)%Z then Some invalid_headers
  else if (n =? 9)%Z then Some invalid_crlf
  else None.

(** The [switch] of [parse_result_str] on the value [n] of its argument;
    [default] is the arm of the values that are no enumerator. *)
Definition parse_result_label (n : Z) : string :=
  match ParseResult_of_code n with
  | Some success => "success"
  | Some method_too_long => "method too long"
  | Some url_too_long => "url too long"
  | Some version_too_long => "version too long"
  | Some invalid_method => "invalid method"
  | Some invalid_url => "invalid url"
  | Some invalid_version => "invalid version"
  | Some invalid_format => "invalid format"
  | Some invalid_crlf => "invalid crlf"
  | Some invalid_headers => "invalid headers"
  | None => "unknown parse error"
  end.

Definition parse_result_str (r : ParseResult) : string :=
  parse_result_label (ParseResult_code r).

(** ** Joining tokens *)

(** The tokens with [d] between them. *)
Fixpoint join_tokens (d : str) (ts : list str) : str :=
  match ts with
  | [] => []
  | t :: ts' =>
      match ts' with
      | [] => t
      | _ :: _ => t ++ d ++ join_tokens d ts'
      end
  end.

(** ** Predicates on the record *)

(** The bytes a record can hold after [parse]: token bytes in method and
    url, anything but CR in the version. *)
Definition clean (q : Request) : Prop :=
  Forall is_token (method q) ∧ Forall is_token (url q)
  ∧ Forall (λ c, c ≠ CR) (version q).

(** The request line that the three strings of [q] spell. *)
Definition request_line (q : Request) : str :=
  method q ++ SPACE :: url q ++ SPACE :: version q ++ CRLF.

(** How the bytes consumed so far relate to the record, state by state. *)
Definition Shape (data : str) (st : Loop.t) : Prop :=
  let q := Loop.req st in
  match Loop.state st with
  | State.method =>
      take (Loop.i st) data = method q ∧ url q = [] ∧ version q = []
  | State.url =>
      take (Loop.i st) data = method q ++ SPACE :: url q ∧ version q = []
  | State.version =>
      take (Loop.i st) data = method q ++ SPACE :: url q ++ SPACE :: version q
  | State.headers => request_line q `prefix_of` data
  end.

(** ** Valid tokens of a request line *)

Definition valid_method (M : str) : Prop :=
  M ≠ [] ∧ Forall is_token M ∧ length M ≤ max_method_len.

Definition valid_url (U : str) : Prop :=
  U ≠ [] ∧ Forall is_token U ∧ length U ≤ max_url_len.

(** The version state accepts every byte but CR. *)
Definition valid_version (V : str) : Prop :=
  V ≠ [] ∧ Forall (λ c, c ≠ CR) V ∧ length V ≤ max_version_len.

(** The record after a request line has been read into a fresh one. *)
Definition record_of (M U V : str) : Request :=
  {| method := M; url := U; version := V; headers := ∅ |}.

(** ** Predicates on the header text and the header map *)

(** Every key and value is free of CR and LF, and no key contains [": "]. *)
Definition entries_ok (m : gmap str str) : Prop :=
  ∀ k v, m !! k = Some v →
    Forall is_text k ∧ Forall is_text v ∧ ¬ contains k SEP.

(** The header text is made of lines free of CR and LF, each followed by
    CRLF, and a last line that is still open. *)
Definition Text (hs : str) : Prop :=
  ∃ ts cur, hs = header_block ts ++ cur
            ∧ Forall (Forall is_text) ts ∧ Forall is_text cur.

(** ** What the record must hold after a return *)








Arguments max_method_len : simpl never.
Arguments max_url_len : simpl never.
Arguments max_version_len : simpl never.

(** ** Facts about [find] *)

Lemma find0_bound d s p : find0 d s = Some p → p + length d ≤ length s.
Proof.
  revert p. induction s as [|c s IH]; intros p; simpl.
  - case_bool_decide as Hp; [|done]. intros [= <-].
    apply prefix_length in Hp. simpl in *. lia.
  - case_bool_decide as Hp.
    + intros [= <-]. apply prefix_length in Hp. simpl in *. lia.
    + destruct (find0 d s) as [p'|] eqn:E; [|done].
      intros [= <-]. specialize (IH _ eq_refl). lia.
Qed.

Lemma find_bound s d pos p :
  find s d pos = Some p → pos ≤ p ∧ p + length d ≤ length s.
Proof.
  unfold find. case_bool_decide as Hpos; [|done].
  destruct (find0 d (drop pos s)) as [p'|] eqn:E; [|done].
  intros [= <-]. apply find0_bound in E. rewrite length_drop in E. lia.
Qed.

(** [find0] returns an occurrence ... *)
Lemma find0_prefix d s p : find0 d s = Some p → d `prefix_of` drop p s.
Proof.
  revert p. induction s as [|c s IH]; intros p; simpl.
  - case_bool_decide; [|done]. by intros [= <-].
  - case_bool_decide.
    + by intros [= <-].
    + destruct (find0 d s) as [p'|] eqn:E; [|done].
      intros [= <-]. simpl. by apply IH.
Qed.

(** ... and the first one. *)
Lemma find0_first d s p p' :
  find0 d s = Some p → p' < p → ¬ d `prefix_of` drop p' s.
Proof.
  revert p p'. induction s as [|c s IH]; intros p p'; simpl.
  - case_bool_decide; [|done]. intros [= <-]. lia.
  - case_bool_decide as Hp.
    + intros [= <-]. lia.
    + destruct (find0 d s) as [q|] eqn:E; [|done].
      intros [= <-] Hlt. destruct p' as [|p']; [done|].
      simpl. apply (IH q); [done|lia].
Qed.

Lemma find0_None d s p : find0 d s = None → ¬ d `prefix_of` drop p s.
Proof.
  revert p. induction s as [|c s IH]; intros p; simpl.
  - case_bool_decide; [done|]. by rewrite drop_nil.
  - case_bool_decide as Hp; [done|].
    destruct (find0 d s) as [q|] eqn:E; [done|]. intros _.
    destruct p as [|p]; [done|]. simpl. by apply IH.
Qed.

(** Where [find0] must answer [Some p]. *)
Lemma find0_at d s p :
  d `prefix_of` drop p s → p ≤ length s →
  (∀ p', p' < p → ¬ d `prefix_of` drop p' s) →
  find0 d s = Some p.
Proof.
  intros Hp Hle Hfirst.
  destruct (find0 d s) as [q|] eqn:E.
  - destruct (lt_eq_lt_dec q p) as [[Hlt| ->]|Hgt]; [|done|].
    + exfalso. apply (Hfirst q Hlt). by eapply find0_prefix.
    + exfalso. by apply (find0_first _ _ _ _ E Hgt).
  - exfalso. by apply (find0_None _ _ p E).
Qed.

(** ** [string_split] terminates *)

Lemma string_split_loop_total fuel s d tokens start :
  d ≠ [] → start ≤ length s → length s - start < fuel →
  is_Some (string_split_loop fuel s d tokens start (find s d start)).
Proof.
  intros Hd. revert tokens start.
  induction fuel as [|fuel IH]; intros tokens start Hs Hf; [lia|].
  destruct (find s d start) as [e|] eqn:E; simpl; [|by eexists].
  apply find_bound in E as [He1 He2].
  assert (0 < length d) by (destruct d; [done|simpl; lia]).
  apply IH; lia.
Qed.

Lemma string_split_total s d : d ≠ [] → is_Some (string_split s d).
Proof. intros Hd. apply string_split_loop_total; [done|lia..]. Qed.

Lemma split_headers_total hs q : is_Some (split_headers hs q).
Proof.
  unfold split_headers.
  destruct (string_split_total hs CRLF) as [tokens ->]; [done|].
  by eexists.
Qed.

Lemma finish_returns st : ∃ r q, finish st = Returned r q.
Proof.
  unfold finish.
  destruct (split_headers_total (Loop.headers st) (Loop.req st)) as [[[] q] ->];
    eauto.
Qed.

(** ** One iteration *)

(** Unfolds an iteration and splits on every test it makes. *)
Ltac step_cases :=
  unfold step, rd_bind, rd_ret, at_ in *; simpl in *;
  repeat case_match; simplify_eq/=;
  repeat match goal with
    | H : bool_decide _ = true |- _ => apply bool_decide_eq_true in H
    | H : bool_decide _ = false |- _ => apply bool_decide_eq_false in H
    end.

(** An iteration that goes round again has moved [i] forward and kept it
    within [len], or has set [stop]. *)
Lemma step_progress data len st log st' log' :
  step data len st log = (Some (Continue st'), log') →
  Loop.i st < len →
  Loop.i st ≤ Loop.i st' ≤ len ∧
  ((Loop.i st < Loop.i st' ∧ Loop.stop st' = Loop.stop st)
   ∨ Loop.stop st' = true).
Proof.
  intros Hs Hi. destruct st as [i state hs stop q].
  step_cases; (split; [lia|]); try (right; done); left; (split; [lia|done]).
Qed.

(** ** The iteration bound is never reached *)

Lemma loop_exit fuel data len st log :
  ¬ (Loop.i st < len ∧ Loop.stop st = false) →
  loop fuel data len st log = (finish st, log).
Proof.
  intros Hc. destruct fuel; simpl; case_bool_decide; simpl;
    destruct (Loop.stop st); simpl; try done; exfalso; by apply Hc.
Qed.

Lemma loop_fuel_irrel f1 f2 data len st log :
  len - Loop.i st ≤ f1 → len - Loop.i st ≤ f2 →
  loop f1 data len st log = loop f2 data len st log.
Proof.
  revert f2 st log. induction f1 as [|f1 IH]; intros f2 st log H1 H2.
  - rewrite !loop_exit; [done|lia..].
  - destruct (decide (Loop.i st < len ∧ Loop.stop st = false)) as [[Hi Hstop]|Hc];
      [|by rewrite !loop_exit].
    destruct f2 as [|f2]; [lia|]. simpl.
    rewrite bool_decide_true, Hstop by done. simpl.
    destruct (step data len st log) as [[[st'|r q]|] log'] eqn:Hs; [|done..].
    destruct (step_progress _ _ _ _ _ _ Hs Hi) as [? [[? ?]|Hstop']].
    + apply IH; lia.
    + rewrite !loop_exit; [done|intros [_ ?]; congruence..].
Qed.

Lemma parse_run data len req : parse data len req = run data len (init req) [].
Proof. unfold parse, run. simpl. by rewrite Nat.sub_0_r. Qed.

Lemma run_exit data len st log :
  ¬ (Loop.i st < len ∧ Loop.stop st = false) →
  run data len st log = (finish st, log).
Proof. apply loop_exit. Qed.

Lemma run_unfold data len st log :
  Loop.i st < len → Loop.stop st = false →
  run data len st log =
    match step data len st log with
    | (None, log') => (Undefined, log')
    | (Some (Return r q), log') => (Returned r q, log')
    | (Some (Continue st'), log') => run data len st' log'
    end.
Proof.
  intros Hi Hstop. unfold run at 1.
  destruct (len - Loop.i st) as [|f] eqn:Hf; [lia|]. simpl.
  rewrite bool_decide_true, Hstop by done. simpl.
  destruct (step data len st log) as [[[st'|r q]|] log'] eqn:Hs; [|done..].
  destruct (step_progress _ _ _ _ _ _ Hs Hi) as [? [[? ?]|Hstop']].
  - apply loop_fuel_irrel; lia.
  - unfold run. rewrite !loop_exit; [done|intros [_ ?]; congruence..].
Qed.

(** Induction over the iterations of [run]. *)
Lemma run_ind (data : str) (len : nat) (P : Loop.t → list nat → Outcome * list nat → Prop) :
  (∀ st log, ¬ (Loop.i st < len ∧ Loop.stop st = false) → P st log (finish st, log)) →
  (∀ st log log', Loop.i st < len → Loop.stop st = false →
     step data len st log = (None, log') → P st log (Undefined, log')) →
  (∀ st log r q log', Loop.i st < len → Loop.stop st = false →
     step data len st log = (Some (Return r q), log') → P st log (Returned r q, log')) →
  (∀ st log st' log', Loop.i st < len → Loop.stop st = false →
     step data len st log = (Some (Continue st'), log') →
     P st' log' (run data len st' log') → P st log (run data len st' log')) →
  ∀ st log, P st log (run data len st log).
Proof.
  intros Hexit Hundef Hret Hcont st.
  remember (len - Loop.i st + (if Loop.stop st then 0 else 1)) as n eqn:Hn.
  revert st Hn. induction (lt_wf n) as [n _ IH]. intros st -> log.
  destruct (decide (Loop.i st < len ∧ Loop.stop st = false)) as [[Hi Hstop]|Hc].
  - rewrite run_unfold by done.
    destruct (step data len st log) as [[[st'|r q]|] log'] eqn:Hs; [|eauto..].
    apply Hcont; try done.
    eapply IH; [|done].
    destruct (step_progress _ _ _ _ _ _ Hs Hi) as [? [[? Hst]|Hstop']].
    + rewrite Hst, Hstop. lia.
    + rewrite Hstop', Hstop. lia.
  - rewrite run_exit by done. by apply Hexit.
Qed.

(** [parse] always ends in a [return] or in an out-of-range read. *)
Lemma run_fuel data len st log : (run data len st log).1 ≠ OutOfFuel.
Proof.
  revert st log. apply (run_ind data len (λ _ _ o, o.1 ≠ OutOfFuel)); try done.
  intros st log _. simpl. by destruct (finish_returns st) as (r & q & ->).
Qed.

(** ** Reads stay below [len] *)

Lemma string_at_lt data k : k < length data → is_Some (string_at data k).
Proof.
  intros Hk. unfold string_at.
  destruct (lookup_lt_is_Some_2 data k Hk) as [c ->]. by eexists.
Qed.

Lemma step_reads data len st log o log' :
  step data len st log = (o, log') → Loop.i st < len →
  Forall (λ k, k < len) log → Forall (λ k, k < len) log'.
Proof.
  intros Hs Hi Hlog. destruct st as [i state hs stop q].
  step_cases; repeat (apply Forall_app_2; [|apply Forall_singleton; lia]); done.
Qed.

Lemma step_defined data len st log log' :
  step data len st log = (None, log') → Loop.i st < len →
  len ≤ length data → False.
Proof.
  intros Hs Hi Hlen. destruct st as [i state hs stop q].
  step_cases;
    match goal with
    | H : string_at data ?k = None |- _ =>
        destruct (string_at_lt data k) as [? ?]; [lia|congruence]
    end.
Qed.

Lemma run_reads data len st log :
  Forall (λ k, k < len) log → Forall (λ k, k < len) (run data len st log).2.
Proof.
  revert st log.
  apply (run_ind data len
    (λ _ log o, Forall (λ k, k < len) log → Forall (λ k, k < len) o.2));
    simpl; eauto using step_reads.
Qed.

Lemma run_defined data len st log :
  len ≤ length data → (run data len st log).1 ≠ Undefined.
Proof.
  intros Hlen. revert st log.
  apply (run_ind data len (λ _ _ o, o.1 ≠ Undefined)); simpl; try done.
  - intros st log _. by destruct (finish_returns st) as (r & q & ->).
  - intros st log log' Hi _ Hs _. by eapply step_defined.
Qed.

(** ** Results that [parse] cannot produce *)

Lemma split_headers_loop_req tokens q b q' :
  split_headers_loop tokens q = (b, q') →
  method q' = method q ∧ url q' = url q ∧ version q' = version q
  ∧ headers q ⊆ headers q'.
Proof.
  revert q. induction tokens as [|token rest IH]; intros q; simpl.
  - by intros [= <- <-].
  - destruct (find token SEP 0) as [iter|]; [|by intros [= <- <-]].
    intros Hl. apply IH in Hl as (-> & -> & -> & Hsub). split_and!; try done.
    etrans; [|exact Hsub]. simpl. unfold emplace.
    destruct (headers q !! _) eqn:E; [done|]. by apply insert_subseteq.
Qed.

Lemma finish_inv st r q :
  finish st = Returned r q →
  ∃ tokens b, string_split (Loop.headers st) CRLF = Some tokens
    ∧ split_headers_loop tokens (Loop.req st) = (b, q)
    ∧ r = (if b then success else invalid_headers).
Proof.
  unfold finish, split_headers.
  destruct (string_split _ _) as [tokens|]; simpl; [|done].
  destruct (split_headers_loop _ _) as [[] q'] eqn:E; intros [= <- <-]; eauto.
Qed.

Lemma step_not_invalid_version data len st log q log' :
  step data len st log ≠ (Some (Return invalid_version q), log').
Proof. intros Hs. destruct st as [i state hs stop q0]. step_cases. Qed.

Lemma run_not_invalid_version data len st log q :
  (run data len st log).1 ≠ Returned invalid_version q.
Proof.
  revert st log.
  apply (run_ind data len (λ _ _ o, o.1 ≠ Returned invalid_version q));
    simpl; try done.
  - intros st log _ Hf. apply finish_inv in Hf as (tokens & [] & _ & _ & ?); done.
  - intros st log r q' log' _ _ Hs [= -> ->].
    by eapply step_not_invalid_version.
Qed.

Lemma step_not_success data len st log q log' :
  step data len st log ≠ (Some (Return success q), log').
Proof. intros Hs. destruct st as [i state hs stop q0]. step_cases. Qed.

(** ** The invariant of the loop *)

Lemma Inv_init : Inv (init Request_new).
Proof. unfold Inv; simpl. split_and!; try done; lia. Qed.

Lemma step_Inv data len st log st' log' :
  step data len st log = (Some (Continue st'), log') → Inv st → Inv st'.
Proof.
  intros Hs. destruct st as [i state hs stop q]. unfold Inv.
  step_cases; unfold push_method, push_url, push_version; simpl;
    rewrite ?length_app; simpl; intros (?&?&?&?); destruct_and?;
    split_and!; try done; try lia; by intros ?%app_eq_nil.
Qed.

Lemma split_headers_empty tokens q b q' :
  string_split [] CRLF = Some tokens →
  split_headers_loop tokens q = (b, q') → b = false ∧ q' = q.
Proof. intros [= <-]. simpl. by intros [= <- <-]. Qed.

Lemma run_Inv_success data len st log q :
  Inv st → (run data len st log).1 = Returned success q →
  method q ≠ [] ∧ url q ≠ [] ∧ version q ≠ [] ∧
  length (method q) ≤ max_method_len ∧
  length (url q) ≤ max_url_len ∧
  length (version q) ≤ max_version_len.
Proof.
  revert st log.
  apply (run_ind data len (λ st _ o, Inv st → o.1 = Returned success q → _));
    simpl; try done.
  - intros st log _ (Hm & Hu & Hv & Hst) Hf.
    apply finish_inv in Hf as (tokens & b & Hsplit & Hloop & Hb).
    destruct b; [|done].
    assert (Loop.headers st ≠ []) as Hne.
    { intros E. rewrite E in Hsplit.
      by destruct (split_headers_empty _ _ _ _ Hsplit Hloop). }
    apply split_headers_loop_req in Hloop as (-> & -> & -> & _).
    destruct (Loop.state st); destruct_and?; by split_and!.
  - intros st log r q' log' _ _ Hs _ [= -> ->].
    exfalso. by eapply step_not_success.
  - eauto using step_Inv.
Qed.

(** ** The record only grows *)

Global Instance extends_preorder : PreOrder extends.
Proof.
  split.
  - by intros q.
  - intros q1 q2 q3 (?&?&?&?) (?&?&?&?).
    split_and!; etrans; done.
Qed.


Lemma step_return_req data len st log r q log' :
  step data len st log = (Some (Return r q), log') → q = Loop.req st.
Proof. intros Hs. destruct st as [i state hs stop q0]. by step_cases. Qed.


(** ** The transitions of the state machine, one lemma per arm *)

Section transitions.
Context (data : str) (len : nat).
Context (i : nat) (hs : str) (stop : bool) (q : Request) (log : list nat).

Ltac eval_step H :=
  unfold step, rd_bind, rd_ret, at_, ceq; simpl; rewrite ?H; simpl;
  repeat first
    [ rewrite bool_decide_true by (done || lia)
    | rewrite bool_decide_false by (done || lia) ];
  simpl; try done.

Lemma step_method_char c :
  string_at data i = Some c → is_token c →
  length (method q) ≠ max_method_len →
  step data len (Loop.mk i State.method hs stop q) log =
    (Some (Continue (Loop.mk (i + 1) State.method hs stop (push_method q c))),
     log ++ [i]).
Proof. intros H (?&?&?) ?. eval_step H. Qed.

Lemma step_method_full c :
  string_at data i = Some c → is_token c →
  length (method q) = max_method_len →
  step data len (Loop.mk i State.method hs stop q) log =
    (Some (Return method_too_long q), log ++ [i]).
Proof. intros H (?&?&?) ?. eval_step H. Qed.

Lemma step_method_space :
  string_at data i = Some SPACE → method q ≠ [] →
  step data len (Loop.mk i State.method hs stop q) log =
    (Some (Continue (Loop.mk (i + 1) State.url hs stop q)), log ++ [i]).
Proof. intros H ?. eval_step H. Qed.

Lemma step_url_char c :
  string_at data i = Some c → is_token c →
  length (url q) ≠ max_url_len →
  step data len (Loop.mk i State.url hs stop q) log =
    (Some (Continue (Loop.mk (i + 1) State.url hs stop (push_url q c))),
     log ++ [i]).
Proof. intros H (?&?&?) ?. eval_step H. Qed.

Lemma step_url_full c :
  string_at data i = Some c → is_token c →
  length (url q) = max_url_len →
  step data len (Loop.mk i State.url hs stop q) log =
    (Some (Return url_too_long q), log ++ [i]).
Proof. intros H (?&?&?) ?. eval_step H. Qed.

Lemma step_url_space :
  string_at data i = Some SPACE → url q ≠ [] →
  step data len (Loop.mk i State.url hs stop q) log =
    (Some (Continue (Loop.mk (i + 1) State.version hs stop q)), log ++ [i]).
Proof. intros H ?. eval_step H. Qed.

Lemma step_version_char c :
  string_at data i = Some c → c ≠ CR →
  length (version q) ≠ max_version_len →
  step data len (Loop.mk i State.version hs stop q) log =
    (Some (Continue (Loop.mk (i + 1) State.version hs stop (push_version q c))),
     log ++ [i]).
Proof. intros H ? ?. eval_step H. Qed.

Lemma step_version_full c :
  string_at data i = Some c → c ≠ CR →
  length (version q) = max_version_len →
  step data len (Loop.mk i State.version hs stop q) log =
    (Some (Return version_too_long q), log ++ [i]).
Proof. intros H ? ?. eval_step H. Qed.

Lemma step_version_crlf :
  string_at data i = Some CR → string_at data (i + 1) = Some LF →
  i + 1 < len → version q ≠ [] →
  step data len (Loop.mk i State.version hs stop q) log =
    (Some (Continue (Loop.mk (i + 2) State.headers hs stop q)),
     (log ++ [i]) ++ [i + 1]).
Proof. intros H H1 ? ?. eval_step H. eval_step H1. Qed.

Lemma step_version_cr_other c :
  string_at data i = Some CR → string_at data (i + 1) = Some c → c ≠ LF →
  i + 1 < len → version q ≠ [] →
  step data len (Loop.mk i State.version hs stop q) log =
    (Some (Return invalid_crlf q), (log ++ [i]) ++ [i + 1]).
Proof. intros H H1 ? ? ?. eval_step H. eval_step H1. Qed.

Lemma step_headers_char c :
  string_at data i = Some c → is_text c →
  step data len (Loop.mk i State.headers hs stop q) log =
    (Some (Continue (Loop.mk (i + 1) State.headers (hs ++ [c]) stop q)),
     log ++ [i]).
Proof. intros H (?&?). eval_step H. Qed.

Lemma step_headers_lf :
  string_at data i = Some LF →
  step data len (Loop.mk i State.headers hs stop q) log =
    (Some (Return invalid_headers q), log ++ [i]).
Proof. intros H. eval_step H. Qed.

Lemma step_headers_eol c :
  string_at data i = Some CR → string_at data (i + 1) = Some LF →
  string_at data (i + 2) = Some c → c ≠ CR → i + 2 < len →
  step data len (Loop.mk i State.headers hs stop q) log =
    (Some (Continue (Loop.mk (i + 2) State.headers (hs ++ CRLF) stop q)),
     ((log ++ [i]) ++ [i + 1]) ++ [i + 2]).
Proof. intros H H1 H2 ? ?. eval_step H. eval_step H1. eval_step H2. Qed.

Lemma step_headers_blank :
  string_at data i = Some CR → string_at data (i + 1) = Some LF →
  string_at data (i + 2) = Some CR → string_at data (i + 3) = Some LF →
  i + 3 < len →
  step data len (Loop.mk i State.headers hs stop q) log =
    (Some (Continue (Loop.mk i State.headers hs true q)),
     (((log ++ [i]) ++ [i + 1]) ++ [i + 2]) ++ [i + 3]).
Proof.
  intros H H1 H2 H3 ?. eval_step H. eval_step H1. eval_step H2. eval_step H3.
Qed.

End transitions.

(** ** Runs of bytes *)

Lemma string_at_drop (data : str) i c rest :
  drop i data = c :: rest → string_at data i = Some c.
Proof.
  intros Hd. unfold string_at.
  by rewrite <-(Nat.add_0_r i), <-lookup_drop, Hd.
Qed.

Lemma drop_next (data : str) i c rest :
  drop i data = c :: rest → drop (i + 1) data = rest.
Proof. intros Hd. by rewrite <-drop_drop, Hd. Qed.

Lemma drop_skip (data : str) i (m rest : str) :
  drop i data = m ++ rest → drop (i + length m) data = rest.
Proof. intros Hd. by rewrite <-drop_drop, Hd, drop_app_length. Qed.

Section runs.
Context (data : str) (len : nat).

(** The method state appends a run of token bytes that fits the limit. *)
Lemma run_method_chars m i hs q log rest :
  drop i data = m ++ rest → i + length m ≤ len → Forall is_token m →
  length (method q) + length m ≤ max_method_len →
  ∃ log', run data len (Loop.mk i State.method hs false q) log =
    run data len (Loop.mk (i + length m) State.method hs false
      {| method := method q ++ m; url := url q;
         version := version q; headers := headers q |}) log'.
Proof.
  revert i q log. induction m as [|c m IH]; intros i q log Hd Hlen Hm Hfit.
  - exists log. simpl. rewrite Nat.add_0_r, app_nil_r. by destruct q.
  - simpl in *. apply Forall_cons in Hm as [Hc Hm].
    rewrite run_unfold by (simpl; done || lia).
    rewrite (step_method_char _ _ _ _ _ _ _ c)
      by (eauto using string_at_drop || lia).
    destruct (IH (i + 1) (push_method q c) (log ++ [i])) as [log' ->].
    + by eapply drop_next.
    + lia.
    + done.
    + simpl. rewrite length_app. simpl. lia.
    + exists log'. simpl. rewrite <-app_assoc. simpl.
      by replace (i + 1 + length m) with (i + S (length m)) by lia.
Qed.

Lemma run_url_chars u i hs q log rest :
  drop i data = u ++ rest → i + length u ≤ len → Forall is_token u →
  length (url q) + length u ≤ max_url_len →
  ∃ log', run data len (Loop.mk i State.url hs false q) log =
    run data len (Loop.mk (i + length u) State.url hs false
      {| method := method q; url := url q ++ u;
         version := version q; headers := headers q |}) log'.
Proof.
  revert i q log. induction u as [|c u IH]; intros i q log Hd Hlen Hu Hfit.
  - exists log. simpl. rewrite Nat.add_0_r, app_nil_r. by destruct q.
  - simpl in *. apply Forall_cons in Hu as [Hc Hu].
    rewrite run_unfold by (simpl; done || lia).
    rewrite (step_url_char _ _ _ _ _ _ _ c)
      by (eauto using string_at_drop || lia).
    destruct (IH (i + 1) (push_url q c) (log ++ [i])) as [log' ->].
    + by eapply drop_next.
    + lia.
    + done.
    + simpl. rewrite length_app. simpl. lia.
    + exists log'. simpl. rewrite <-app_assoc. simpl.
      by replace (i + 1 + length u) with (i + S (length u)) by lia.
Qed.

(** The version state appends any byte but CR. *)
Lemma run_version_chars v i hs q log rest :
  drop i data = v ++ rest → i + length v ≤ len → Forall (λ c, c ≠ CR) v →
  length (version q) + length v ≤ max_version_len →
  ∃ log', run data len (Loop.mk i State.version hs false q) log =
    run data len (Loop.mk (i + length v) State.version hs false
      {| method := method q; url := url q;
         version := version q ++ v; headers := headers q |}) log'.
Proof.
  revert i q log. induction v as [|c v IH]; intros i q log Hd Hlen Hv Hfit.
  - exists log. simpl. rewrite Nat.add_0_r, app_nil_r. by destruct q.
  - simpl in *. apply Forall_cons in Hv as [Hc Hv].
    rewrite run_unfold by (simpl; done || lia).
    rewrite (step_version_char _ _ _ _ _ _ _ c)
      by (eauto using string_at_drop || lia).
    destruct (IH (i + 1) (push_version q c) (log ++ [i])) as [log' ->].
    + by eapply drop_next.
    + lia.
    + done.
    + simpl. rewrite length_app. simpl. lia.
    + exists log'. simpl. rewrite <-app_assoc. simpl.
      by replace (i + 1 + length v) with (i + S (length v)) by lia.
Qed.

(** The headers state copies a run of bytes free of CR and LF. *)
Lemma run_headers_chars l i hs q log rest :
  drop i data = l ++ rest → i + length l ≤ len → Forall is_text l →
  ∃ log', run data len (Loop.mk i State.headers hs false q) log =
    run data len (Loop.mk (i + length l) State.headers (hs ++ l) false q) log'.
Proof.
  revert i hs log. induction l as [|c l IH]; intros i hs log Hd Hlen Hl.
  - exists log. simpl. by rewrite Nat.add_0_r, app_nil_r.
  - simpl in *. apply Forall_cons in Hl as [Hc Hl].
    rewrite run_unfold by (simpl; done || lia).
    rewrite (step_headers_char _ _ _ _ _ _ _ c)
      by (eauto using string_at_drop).
    destruct (IH (i + 1) (hs ++ [c]) (log ++ [i])) as [log' ->].
    + by eapply drop_next.
    + lia.
    + done.
    + exists log'. rewrite <-app_assoc. simpl.
      by replace (i + 1 + length l) with (i + S (length l)) by lia.
Qed.

End runs.

Lemma string_at_drop_lookup (data l : str) i k c :
  drop i data = l → l !! k = Some c → string_at data (i + k) = Some c.
Proof.
  intros <-. rewrite lookup_drop. unfold string_at. by intros ->.
Qed.

Section request_head.
Context (data : str) (len : nat).

(** A well-formed request line takes the loop to the headers state with
    the three tokens in the record. *)
Lemma run_request_line M U V rest q0 log :
  data = M ++ [SPACE] ++ U ++ [SPACE] ++ V ++ CRLF ++ rest →
  length M + length U + length V + 4 ≤ len →
  M ≠ [] → Forall is_token M → length M ≤ max_method_len →
  U ≠ [] → Forall is_token U → length U ≤ max_url_len →
  V ≠ [] → Forall (λ c, c ≠ CR) V → length V ≤ max_version_len →
  method q0 = [] → url q0 = [] → version q0 = [] →
  ∃ log', run data len (init q0) log =
    run data len (Loop.mk (length M + length U + length V + 4) State.headers [] false
      {| method := M; url := U; version := V; headers := headers q0 |}) log'.
Proof.
  intros Hdata Hlen HM HMt HMl HU HUt HUl HV HVt HVl Hm0 Hu0 Hv0.
  unfold init.
  destruct (run_method_chars data len M 0 [] q0 log
              ([SPACE] ++ U ++ [SPACE] ++ V ++ CRLF ++ rest))
    as [log1 ->]; [by rewrite Hdata|lia|done|rewrite Hm0; simpl; lia|].
  rewrite Hm0, Hu0, Hv0. simpl.
  assert (drop (length M) data = SPACE :: U ++ [SPACE] ++ V ++ CRLF ++ rest) as Hd1.
  { by rewrite Hdata, drop_app_length. }
  rewrite run_unfold by (simpl; done || lia).
  rewrite step_method_space by (simpl; eauto using string_at_drop).
  apply drop_next in Hd1.
  destruct (run_url_chars data len U (length M + 1) []
              {| method := M; url := []; version := []; headers := headers q0 |}
              (log1 ++ [length M]) ([SPACE] ++ V ++ CRLF ++ rest))
    as [log2 ->]; [done|lia|done|simpl; lia|].
  simpl. apply drop_skip in Hd1. simpl in Hd1.
  rewrite run_unfold by (simpl; done || lia).
  rewrite step_url_space by (simpl; eauto using string_at_drop).
  apply drop_next in Hd1.
  destruct (run_version_chars data len V (length M + 1 + length U + 1) []
              {| method := M; url := U; version := []; headers := headers q0 |}
              (log2 ++ [length M + 1 + length U]) (CRLF ++ rest))
    as [log3 ->]; [done|lia|done|simpl; lia|].
  simpl. apply drop_skip in Hd1. simpl in Hd1.
  rewrite run_unfold by (simpl; done || lia).
  rewrite step_version_crlf; simpl;
    [|by eapply string_at_drop
     |by eapply (string_at_drop_lookup _ _ _ 1)
     |lia|done].
  eexists.
  by replace (length M + 1 + length U + 1 + length V + 2)
    with (length M + length U + length V + 4) by lia.
Qed.

(** Non-empty header lines free of CR and LF, closed by the blank line,
    are copied into the header text with CRLF between them. *)
Lemma run_header_lines ls l i hs q log body :
  drop i data = header_block (l :: ls) ++ CRLF ++ body →
  i + length (header_block (l :: ls)) + 2 ≤ len →
  Forall (λ l, l ≠ [] ∧ Forall is_text l) (l :: ls) →
  ∃ j log', run data len (Loop.mk i State.headers hs false q) log =
    (finish (Loop.mk j State.headers (hs ++ join_crlf l ls) true q), log').
Proof.
  revert l i hs log.
  induction ls as [|l2 ls IH]; intros l i hs log Hd Hlen Hok;
    apply Forall_cons in Hok as [[Hne Hl] Hok].
  - simpl in *. rewrite length_app in Hlen. simpl in Hlen.
    rewrite <-app_assoc in Hd. simpl in Hd.
    destruct (run_headers_chars data len l i hs q log _ Hd) as [log1 ->];
      [lia|done|].
    apply drop_skip in Hd.
    rewrite run_unfold by (simpl; done || lia).
    rewrite step_headers_blank; simpl;
      [|by eapply string_at_drop
       |by eapply (string_at_drop_lookup _ _ _ 1)
       |by eapply (string_at_drop_lookup _ _ _ 2)
       |by eapply (string_at_drop_lookup _ _ _ 3)
       |lia].
    rewrite run_exit by (simpl; intros [_ ?]; done). eauto.
  - pose proof Hok as Hok2. apply Forall_cons in Hok2 as [[Hne2 Hl2] _].
    destruct l2 as [|c2 l2]; [done|].
    apply Forall_cons in Hl2 as [[Hc2 _] _].
    change (header_block (l :: (c2 :: l2) :: ls))
      with (l ++ CRLF ++ header_block ((c2 :: l2) :: ls)) in *.
    rewrite length_app in Hlen. simpl in Hlen.
    rewrite <-app_assoc in Hd.
    destruct (run_headers_chars data len l i hs q log _ Hd) as [log1 ->];
      [lia|done|].
    apply drop_skip in Hd. simpl in Hd.
    rewrite run_unfold by (simpl; done || lia).
    rewrite (step_headers_eol _ _ _ _ _ _ _ c2); simpl;
      [|by eapply string_at_drop
       |by eapply (string_at_drop_lookup _ _ _ 1)
       |by eapply (string_at_drop_lookup _ _ _ 2)
       |done|lia].
    apply drop_next, drop_next in Hd.
    destruct (IH (c2 :: l2) (i + length l + 2) ((hs ++ l) ++ CRLF)
                (((log1 ++ [i + length l]) ++ [i + length l + 1])
                   ++ [i + length l + 2])) as (j & log' & ->).
    + replace (i + length l + 2) with (i + length l + 1 + 1) by lia.
      by rewrite Hd.
    + simpl. lia.
    + done.
    + exists j, log'. simpl. by rewrite <-!app_assoc.
Qed.

End request_head.

(** ** Splitting the header text *)

Lemma find0_skip c d (l rest : str) :
  c ∉ l → find0 (c :: d) (l ++ rest) = (λ p, length l + p) <$> find0 (c :: d) rest.
Proof.
  induction l as [|a l IH]; intros Hc; simpl.
  - by destruct (find0 (c :: d) rest).
  - apply not_elem_of_cons in Hc as [Hne Hc].
    rewrite bool_decide_false by (by intros ?%prefix_cons_inv_1).
    rewrite IH by done. by destruct (find0 (c :: d) rest).
Qed.

Lemma find0_here d (rest : str) : find0 d (d ++ rest) = Some 0.
Proof.
  destruct d as [|c d]; simpl.
  - by destruct rest.
  - by rewrite bool_decide_true by (by apply prefix_cons, prefix_app_r).
Qed.

Lemma find0_absent c d (l : str) : c ∉ l → find0 (c :: d) l = None.
Proof.
  intros Hc. by rewrite <-(app_nil_r l), find0_skip.
Qed.

Lemma find_after (pre x d : str) :
  find (pre ++ x) d (length pre) = (λ p, length pre + p) <$> find0 d x.
Proof.
  unfold find. rewrite bool_decide_true by (rewrite length_app; lia).
  by rewrite drop_app_length.
Qed.

Lemma find_0 (s d : str) : find s d 0 = find0 d s.
Proof.
  unfold find. rewrite bool_decide_true by lia.
  rewrite drop_0. by destruct (find0 d s).
Qed.

Lemma length_join_crlf l ls : length ls ≤ length (join_crlf l ls).
Proof.
  revert l. induction ls as [|l' ls IH]; intros l; simpl; [lia|].
  rewrite length_app. simpl. specialize (IH l'). lia.
Qed.

Lemma string_split_loop_join ls l pre tokens fuel :
  length ls < fuel → Forall (λ l, CR ∉ l) (l :: ls) →
  string_split_loop fuel (pre ++ join_crlf l ls) CRLF tokens (length pre)
    (find (pre ++ join_crlf l ls) CRLF (length pre))
  = Some (tokens ++ l :: ls).
Proof.
  revert l pre tokens fuel.
  induction ls as [|l' ls IH]; intros l pre tokens fuel Hf Hok;
    apply Forall_cons in Hok as [Hl Hok]; rewrite find_after; cbn [join_crlf].
  - rewrite (find0_absent CR [LF]) by done.
    destruct fuel; simpl; unfold substr_from; by rewrite drop_app_length.
  - rewrite (find0_skip CR [LF]) by done.
    rewrite (find0_here CRLF).
    destruct fuel as [|fuel]; [simpl in Hf; lia|]. 
    cbn [string_split_loop fmap option_fmap option_map].
    replace (length pre + (length l + 0) + length CRLF)
      with (length (pre ++ l ++ CRLF)) by (rewrite !length_app; simpl; lia).
    replace (pre ++ l ++ CRLF ++ join_crlf l' ls)
      with ((pre ++ l ++ CRLF) ++ join_crlf l' ls) by (by rewrite <-!app_assoc).
    rewrite IH by (done || simpl in Hf; lia).
    rewrite <-app_assoc. simpl. do 3 f_equal.
    unfold substr. rewrite <-!app_assoc, drop_app_length.
    replace (length pre + (length l + 0) - length pre) with (length l) by lia.
    by rewrite take_app_length.
Qed.

Lemma string_split_join l ls :
  Forall (λ l, CR ∉ l) (l :: ls) →
  string_split (join_crlf l ls) CRLF = Some (l :: ls).
Proof.
  intros Hok. unfold string_split.
  apply (string_split_loop_join ls l [] []); [|done].
  pose proof (length_join_crlf l ls). lia.
Qed.

(** ** Splitting a line into key and value *)

Lemma find0_contains (s d : str) p : find0 d s = Some p → contains s d.
Proof.
  intros Hf. destruct (find0_prefix _ _ _ Hf) as [b Hb].
  exists (take p s), b. by rewrite <-Hb, take_drop.
Qed.

Lemma contains_find0 (s d : str) : contains s d → is_Some (find0 d s).
Proof.
  intros (a & b & ->). destruct (find0 d (a ++ d ++ b)) as [p|] eqn:E; [done|].
  exfalso. apply (find0_None _ _ (length a) E).
  rewrite drop_app_length. by apply prefix_app_r.
Qed.

Lemma find0_None_iff (s d : str) : find0 d s = None ↔ ¬ contains s d.
Proof.
  split.
  - intros E [p Hp]%contains_find0. congruence.
  - intros Hn. destruct (find0 d s) eqn:E; [|done].
    exfalso. eauto using find0_contains.
Qed.

Lemma find_header_line (k v : str) :
  ¬ contains k SEP → find (header_line (k, v)) SEP 0 = Some (length k).
Proof.
  intros Hk. rewrite find_0. unfold header_line. cbn [fst snd].
  apply find0_at.
  - rewrite drop_app_length. by apply prefix_app_r.
  - rewrite length_app. lia.
  - intros p' Hp' Hpre. apply Hk.
    rewrite drop_app_le in Hpre by lia.
    destruct (drop p' k) as [|x k'] eqn:Ek.
    { apply (f_equal length) in Ek. rewrite length_drop in Ek. simpl in Ek. lia. }
    destruct k' as [|y k'].
    { simpl in Hpre. apply prefix_cons_inv_2, prefix_cons_inv_1 in Hpre. done. }
    pose proof (prefix_cons_inv_1 _ _ _ _ Hpre) as <-.
    apply prefix_cons_inv_2, prefix_cons_inv_1 in Hpre as <-.
    exists (take p' k), k'. by rewrite <-(take_drop p' k) at 1; rewrite Ek.
Qed.

Lemma emplace_union (k v : str) (m : gmap str str) : emplace k v m = m ∪ {[k := v]}.
Proof.
  unfold emplace. destruct (m !! k) as [w|] eqn:E.
  - apply map_eq. intros j. rewrite lookup_union.
    destruct (decide (j = k)) as [->|Hne].
    + by rewrite E, lookup_singleton_eq.
    + rewrite lookup_singleton_ne by done. by destruct (m !! j).
  - by apply insert_union_singleton_r.
Qed.

Lemma split_headers_loop_lines (hs : list (str * str)) q :
  Forall (λ kv, ¬ contains kv.1 SEP) hs →
  split_headers_loop (header_line <$> hs) q =
    (true, {| method := method q; url := url q; version := version q;
              headers := headers q ∪ list_to_map hs |}).
Proof.
  revert q. induction hs as [|[k v] hs IH]; intros q Hok.
  - simpl. rewrite (right_id_L ∅ (∪)). by destruct q.
  - apply Forall_cons in Hok as [Hk Hok]. simpl in Hk.
    rewrite fmap_cons. cbn [split_headers_loop].
    rewrite find_header_line by done.
    rewrite IH by done. simpl. do 2 f_equal.
    unfold substr_from, substr, header_line. simpl.
    rewrite drop_0, take_app_length.
    replace (k ++ COLON :: SPACE :: v) with ((k ++ SEP) ++ v)
        by (by rewrite <-app_assoc).
    replace (length k + 2) with (length (k ++ SEP))
        by (rewrite length_app; simpl; lia).
    rewrite drop_app_length.
    rewrite emplace_union, <-(assoc_L (∪)).
    by rewrite <-insert_union_singleton_l.
Qed.

Lemma split_headers_loop_bad (ls : list str) q :
  Exists (λ l, ¬ contains l SEP) ls → (split_headers_loop ls q).1 = false.
Proof.
  revert q. induction ls as [|l ls IH]; intros q Hex.
  - by apply Exists_nil in Hex.
  - simpl. rewrite find_0.
    destruct (find0 SEP l) as [p|] eqn:E; simpl; [|done].
    apply Exists_cons in Hex as [Hl|Hex]; [|by apply IH].
    exfalso. eauto using find0_contains.
Qed.

(** ** Whole requests *)

Lemma length_request M U V ls :
  length (request M U V ls) =
    length M + length U + length V + 4 + length (header_block ls) + 2.
Proof. unfold request. rewrite !length_app. simpl. lia. Qed.

(** A well-formed request line followed by at least one well-framed header
    line and the blank line: the loop stops at the blank line, and what is
    left to do is [finish] on the joined lines. *)
Lemma parse_request_finish M U V l ls body len q0 :
  M ≠ [] → Forall is_token M → length M ≤ max_method_len →
  U ≠ [] → Forall is_token U → length U ≤ max_url_len →
  V ≠ [] → Forall (λ c, c ≠ CR) V → length V ≤ max_version_len →
  method q0 = [] → url q0 = [] → version q0 = [] →
  Forall (λ l, l ≠ [] ∧ Forall is_text l) (l :: ls) →
  length (request M U V (l :: ls)) ≤ len →
  ∃ j, outcome (request M U V (l :: ls) ++ body) len q0 =
    finish (Loop.mk j State.headers (join_crlf l ls) true
      {| method := M; url := U; version := V; headers := headers q0 |}).
Proof.
  intros HM HMt HMl HU HUt HUl HV HVt HVl Hm0 Hu0 Hv0 Hls Hlen.
  rewrite length_request in Hlen.
  set (data := request M U V (l :: ls) ++ body).
  assert (data = M ++ [SPACE] ++ U ++ [SPACE] ++ V ++ CRLF
                   ++ (header_block (l :: ls) ++ CRLF ++ body)) as Hdata.
  { unfold data, request. by rewrite <-!app_assoc. }
  unfold outcome. rewrite parse_run.
  destruct (run_request_line data len M U V _ q0 [] Hdata) as [log1 ->];
    try done; [lia|].
  destruct (run_header_lines data len ls l
              (length M + length U + length V + 4) []
              {| method := M; url := U; version := V; headers := headers q0 |}
              log1 body) as (j & log2 & ->); [|lia|done|by exists j].
  rewrite Hdata.
  replace (M ++ [SPACE] ++ U ++ [SPACE] ++ V ++ CRLF
             ++ header_block (l :: ls) ++ CRLF ++ body)
    with ((M ++ [SPACE] ++ U ++ [SPACE] ++ V ++ CRLF)
             ++ header_block (l :: ls) ++ CRLF ++ body)
    by (by rewrite <-!app_assoc).
  replace (length M + length U + length V + 4)
    with (length (M ++ [SPACE] ++ U ++ [SPACE] ++ V ++ CRLF))
    by (rewrite !length_app; simpl; lia).
  by rewrite drop_app_length.
Qed.

Lemma text_not_CR (l : str) : Forall is_text l → CR ∉ l.
Proof.
  intros Hl Hin. eapply Forall_forall in Hl; [|done]. by destruct Hl.
Qed.

Lemma header_line_framed kv :
  header_ok kv → header_line kv ≠ [] ∧ Forall is_text (header_line kv).
Proof.
  intros (Hk & Hv & _). unfold header_line. split.
  - by destruct kv.1.
  - rewrite !Forall_app. split_and!; [done| |done].
    by repeat constructor.
Qed.

(** The outcome on a request whose header lines are [KEY ": " VALUE]. *)
Lemma parse_request_headers M U V (hs : list (str * str)) :
  M ≠ [] → Forall is_token M → length M ≤ max_method_len →
  U ≠ [] → Forall is_token U → length U ≤ max_url_len →
  V ≠ [] → Forall (λ c, c ≠ CR) V → length V ≤ max_version_len →
  hs ≠ [] → Forall header_ok hs →
  outcome (request M U V (header_line <$> hs))
          (length (request M U V (header_line <$> hs))) Request_new =
    Returned success
      {| method := M; url := U; version := V; headers := list_to_map hs |}.
Proof.
  intros HM HMt HMl HU HUt HUl HV HVt HVl Hne Hok.
  assert (Forall (λ l, l ≠ [] ∧ Forall is_text l) (header_line <$> hs))
    as Hframed.
  { apply Forall_fmap. eapply Forall_impl; [done|].
    intros ?. apply header_line_framed. }
  assert (Forall (λ l, CR ∉ l) (header_line <$> hs)) as HCR.
  { eapply Forall_impl; [done|]. intros ? [_ ?]. by apply text_not_CR. }
  assert (Forall (λ kv, ¬ contains kv.1 SEP) hs) as Hsep.
  { eapply Forall_impl; [done|]. by intros ? (_ & _ & ?). }
  destruct (header_line <$> hs) as [|l ls] eqn:Els.
  { by destruct hs. }
  rewrite <-(app_nil_r (request _ _ _ _)) at 1.
  destruct (parse_request_finish M U V l ls
              [] (length (request M U V (l :: ls)))
              Request_new) as [j ->]; try done.
  unfold finish, split_headers. cbn [Loop.headers Loop.req].
  rewrite string_split_join by done. cbn [mbind option_bind].
  rewrite <-Els, split_headers_loop_lines by done.
  simpl. by rewrite (left_id_L ∅ (∪)).
Qed.

Lemma list_to_map_first (l1 l2 : list (str * str)) k v :
  k ∉ l1.*1 → (list_to_map (l1 ++ (k, v) :: l2) : gmap str str) !! k = Some v.
Proof.
  induction l1 as [|[k1 v1] l1 IH]; simpl; intros Hk.
  - by rewrite lookup_insert_eq.
  - apply not_elem_of_cons in Hk as [Hne Hk].
    rewrite lookup_insert_ne by done. by apply IH.
Qed.

(** ** Leaving a state, and overrunning its limit *)

Lemma drop_prefix (data pre tail : str) n :
  data = pre ++ tail → n = length pre → drop n data = tail.
Proof. intros -> ->. apply drop_app_length. Qed.

(** Proves [drop n data = tail] from [Hd : data = ...] and the prefix. *)
Ltac drop_after Hd pre :=
  apply (drop_prefix _ pre);
  [ rewrite Hd; repeat (rewrite <-app_assoc; simpl); done
  | repeat (rewrite length_app; simpl); simpl; lia ].

Section limits.
Context (c : ascii) (len : nat) (Hc : is_token c).

Section method_limit.
Context (M : str).
Context (HM : M ≠ []) (HMt : Forall is_token M) (HMl : length M ≤ max_method_len).

Let q1 : Request := {| method := M; url := []; version := []; headers := ∅ |}.

Lemma method_read data tail :
  data = M ++ tail → length M ≤ len →
  ∃ log, parse data len Request_new =
    run data len (Loop.mk (length M) State.method [] false q1) log.
Proof.
  intros -> Hlen. rewrite parse_run. unfold init.
  destruct (run_method_chars (M ++ tail) len M 0 [] Request_new [] tail)
    as [log ->]; try done; simpl; eauto.
Qed.

Lemma method_left data tail :
  data = M ++ SPACE :: tail → length M < len →
  ∃ log, parse data len Request_new =
    run data len (Loop.mk (length M + 1) State.url [] false q1) log.
Proof.
  intros Hd Hlen.
  destruct (method_read data (SPACE :: tail) Hd) as [log ->]; [lia|].
  rewrite run_unfold by (simpl; done || lia).
  rewrite step_method_space; simpl; eauto.
  eapply string_at_drop. drop_after Hd M.
Qed.

Lemma method_overrun data tail :
  data = M ++ c :: tail → length M = max_method_len → length M < len →
  outcome data len Request_new = Returned method_too_long q1.
Proof.
  intros Hd Hfull Hlen. unfold outcome.
  destruct (method_read data (c :: tail) Hd) as [log ->]; [lia|].
  rewrite run_unfold by (simpl; done || lia).
  rewrite (step_method_full _ _ _ _ _ _ _ c); simpl; try done.
  eapply string_at_drop. drop_after Hd M.
Qed.

Section url_limit.
Context (U : str).
Context (HU : U ≠ []) (HUt : Forall is_token U) (HUl : length U ≤ max_url_len).

Let q2 : Request := {| method := M; url := U; version := []; headers := ∅ |}.

Lemma url_read data tail :
  data = M ++ SPACE :: U ++ tail → length M + length U + 1 ≤ len →
  ∃ log, parse data len Request_new =
    run data len (Loop.mk (length M + 1 + length U) State.url [] false q2) log.
Proof.
  intros Hd Hlen.
  destruct (method_left data (U ++ tail) Hd) as [log ->]; [lia|].
  destruct (run_url_chars data len U (length M + 1) [] q1 log tail)
    as [log' ->]; simpl; eauto; try lia.
  drop_after Hd (M ++ [SPACE]).
Qed.

Lemma url_left data tail :
  data = M ++ SPACE :: U ++ SPACE :: tail → length M + length U + 1 < len →
  ∃ log, parse data len Request_new =
    run data len (Loop.mk (length M + length U + 2) State.version [] false q2) log.
Proof.
  intros Hd Hlen.
  destruct (url_read data (SPACE :: tail) Hd) as [log ->]; [lia|].
  rewrite run_unfold by (simpl; done || lia).
  rewrite step_url_space; simpl.
  - replace (length M + 1 + length U + 1) with (length M + length U + 2) by lia.
    eauto.
  - eapply string_at_drop. drop_after Hd (M ++ SPACE :: U).
  - done.
Qed.

Lemma url_overrun data tail :
  data = M ++ SPACE :: U ++ c :: tail → length U = max_url_len →
  length M + length U + 1 < len →
  outcome data len Request_new = Returned url_too_long q2.
Proof.
  intros Hd Hfull Hlen. unfold outcome.
  destruct (url_read data (c :: tail) Hd) as [log ->]; [lia|].
  rewrite run_unfold by (simpl; done || lia).
  rewrite (step_url_full _ _ _ _ _ _ _ c); simpl; try done.
  eapply string_at_drop. drop_after Hd (M ++ SPACE :: U).
Qed.

Section version_limit.
Context (V : str).
Context (HV : V ≠ []) (HVt : Forall (λ c, c ≠ CR) V)
        (HVl : length V ≤ max_version_len).

Let q3 : Request := {| method := M; url := U; version := V; headers := ∅ |}.

Lemma version_read data tail :
  data = M ++ SPACE :: U ++ SPACE :: V ++ tail →
  length M + length U + length V + 2 ≤ len →
  ∃ log, parse data len Request_new =
    run data len
      (Loop.mk (length M + length U + 2 + length V) State.version [] false q3) log.
Proof.
  intros Hd Hlen.
  destruct (url_left data (V ++ tail) Hd) as [log ->]; [lia|].
  destruct (run_version_chars data len V (length M + length U + 2) [] q2 log tail)
    as [log' ->]; simpl; eauto; try lia.
  drop_after Hd (M ++ SPACE :: U ++ [SPACE]).
Qed.

Lemma version_left data tail :
  data = M ++ SPACE :: U ++ SPACE :: V ++ CR :: LF :: tail →
  length M + length U + length V + 3 < len →
  ∃ log, parse data len Request_new =
    run data len
      (Loop.mk (length M + length U + length V + 4) State.headers [] false q3) log.
Proof.
  intros Hd Hlen.
  destruct (version_read data (CR :: LF :: tail) Hd) as [log ->]; [lia|].
  assert (drop (length M + length U + 2 + length V) data = CR :: LF :: tail) as Hdrop.
  { drop_after Hd (M ++ SPACE :: U ++ SPACE :: V). }
  rewrite run_unfold by (simpl; done || lia).
  rewrite step_version_crlf; simpl;
    [|by eapply string_at_drop
     |by eapply (string_at_drop_lookup _ _ _ 1)
     |lia|done].
  replace (length M + length U + 2 + length V + 2)
    with (length M + length U + length V + 4) by lia.
  eauto.
Qed.

Lemma version_overrun data tail :
  data = M ++ SPACE :: U ++ SPACE :: V ++ c :: tail →
  length V = max_version_len →
  length M + length U + length V + 2 < len →
  outcome data len Request_new = Returned version_too_long q3.
Proof.
  intros Hd Hfull Hlen. unfold outcome.
  destruct (version_read data (c :: tail) Hd) as [log ->]; [lia|].
  rewrite run_unfold by (simpl; done || lia).
  rewrite (step_version_full _ _ _ _ _ _ _ c); simpl; try done.
  - eapply string_at_drop. drop_after Hd (M ++ SPACE :: U ++ SPACE :: V).
  - by destruct Hc as (_ & ? & _).
Qed.

(** A CR after the version that is not followed by LF. *)
Lemma version_cr_without_lf data tail x :
  data = M ++ SPACE :: U ++ SPACE :: V ++ CR :: x :: tail → x ≠ LF →
  length M + length U + length V + 3 < len →
  outcome data len Request_new = Returned invalid_crlf q3.
Proof.
  intros Hd Hx Hlen. unfold outcome.
  destruct (version_read data (CR :: x :: tail) Hd) as [log ->]; [lia|].
  assert (drop (length M + length U + 2 + length V) data = CR :: x :: tail) as Hdrop.
  { drop_after Hd (M ++ SPACE :: U ++ SPACE :: V). }
  rewrite run_unfold by (simpl; done || lia).
  rewrite (step_version_cr_other _ _ _ _ _ _ _ x); simpl;
    [done
    |by eapply string_at_drop
    |by eapply (string_at_drop_lookup _ _ _ 1)
    |done|lia|done].
Qed.

(** A lone LF in the header block, after any bytes free of CR and LF. *)
Lemma headers_lone_lf data l tail :
  data = M ++ SPACE :: U ++ SPACE :: V ++ CR :: LF :: l ++ LF :: tail →
  Forall is_text l →
  length M + length U + length V + 4 + length l < len →
  outcome data len Request_new = Returned invalid_headers q3.
Proof.
  intros Hd Hl Hlen. unfold outcome.
  destruct (version_left data (l ++ LF :: tail) Hd) as [log ->]; [lia|].
  assert (drop (length M + length U + length V + 4) data = l ++ LF :: tail)
    as Hdrop.
  { drop_after Hd (M ++ SPACE :: U ++ SPACE :: V ++ CRLF). }
  destruct (run_headers_chars data len l _ [] q3 log _ Hdrop) as [log' ->];
    [lia|done|].
  apply drop_skip in Hdrop.
  rewrite run_unfold by (simpl; done || lia).
  rewrite step_headers_lf; simpl; [done|by eapply string_at_drop].
Qed.

End version_limit.
End url_limit.
End method_limit.
End limits.

(** * The claims *)

(** Closes a decidable goal by evaluation. *)
Ltac by_eval := apply (bool_decide_unpack _); vm_compute; exact I.

(** C10: on the empty input ([len = 0]) the loop body never runs, the
    header text is empty, its split is the single empty line, which has no
    [": "]: the call returns [invalid_headers], whatever the buffer and
    the record hold, and reads nothing. *)
Theorem parse_empty_input data req :
  parse data 0 req = (Returned invalid_headers req, []).
Proof. reflexivity. Qed.

(** C9: no call of [parse] returns [invalid_version]. *)
Theorem parse_never_invalid_version data len req q :
  outcome data len req ≠ Returned invalid_version q.
Proof. unfold outcome. rewrite parse_run. apply run_not_invalid_version. Qed.

(** C2: when [len] does not exceed the size of the buffer, [parse] returns
    a result code (it neither runs into undefined behaviour nor fails to
    terminate), and every index it reads, look-ahead included, is below
    [len]. *)
Theorem parse_reads_in_bounds data len req :
  len ≤ length data →
  (∃ r q, outcome data len req = Returned r q) ∧
  Forall (λ k, k < len) (reads data len req).
Proof.
  intros Hlen. unfold outcome, reads. rewrite parse_run. split.
  - pose proof (run_fuel data len (init req) []) as Hfuel.
    pose proof (run_defined data len (init req) [] Hlen) as Hdef.
    destruct (run data len (init req) []).1; [eauto|done..].
  - by apply run_reads.
Qed.

(** The bounds on the sample request. *)
Lemma parse_reads_in_bounds_witness :
  length sample_ok ≤ length sample_ok ∧
  ((∃ r q, outcome sample_ok (length sample_ok) Request_new = Returned r q) ∧
   Forall (λ k, k < length sample_ok)
     (reads sample_ok (length sample_ok) Request_new)).
Proof.
  split; [lia|].
  apply (parse_reads_in_bounds sample_ok (length sample_ok) Request_new). lia.
Defined.

(** C7: a successful call on a fresh record leaves a non-empty method, url
    and version in it, of at most 32, 1024 and 32 bytes. *)
Theorem success_tokens data len q :
  outcome data len Request_new = Returned success q →
  method q ≠ [] ∧ url q ≠ [] ∧ version q ≠ [] ∧
  length (method q) ≤ max_method_len ∧
  length (url q) ≤ max_url_len ∧
  length (version q) ≤ max_version_len.
Proof.
  unfold outcome. rewrite parse_run.
  apply run_Inv_success, Inv_init.
Qed.

(** The sample request succeeds, and its tokens are as stated. *)
Lemma success_tokens_witness :
  let q := {| method := lit "GET"; url := lit "/x"; version := lit "HTTP/1.1";
              headers := {[ lit "Host" := lit "example.com" ]} |} in
  outcome sample_ok (length sample_ok) Request_new = Returned success q ∧
  (method q ≠ [] ∧ url q ≠ [] ∧ version q ≠ [] ∧
   length (method q) ≤ max_method_len ∧
   length (url q) ≤ max_url_len ∧
   length (version q) ≤ max_version_len).
Proof.
  split; [by vm_compute|].
  apply (success_tokens sample_ok (length sample_ok)). by vm_compute.
Defined.


(** C1, counterexamples: three inputs of the claimed shape on which the
    claim fails.  With no header line the call returns [invalid_headers];
    with the key [a] twice the map holds [a -> 1] only, not the pair
    [a -> 2]; with the key [a: b] the map holds [a -> b: c], not the pair
    of the input. *)
Lemma well_formed_counterexamples :
  outcome sample_no_headers (length sample_no_headers) Request_new =
    Returned invalid_headers
      {| method := lit "GET"; url := lit "/x"; version := lit "HTTP/1.1";
         headers := ∅ |}
  ∧ outcome sample_duplicate (length sample_duplicate) Request_new =
    Returned success
      {| method := lit "GET"; url := lit "/x"; version := lit "HTTP/1.1";
         headers := {[ lit "a" := lit "1" ]} |}
  ∧ outcome sample_sep_in_key (length sample_sep_in_key) Request_new =
    Returned success
      {| method := lit "GET"; url := lit "/x"; version := lit "HTTP/1.1";
         headers := {[ lit "a" := lit "b: c" ]} |}.
Proof. split_and!; by vm_compute. Qed.

(** C1, as amended: a buffer [METHOD SP TARGET SP VERSION CRLF] followed by
    one or more lines [KEY ": " VALUE CRLF] and the final CRLF, with the
    three tokens non-empty, free of space, CR and LF and within 32, 1024
    and 32 bytes, keys and values free of CR and LF, no key containing
    [": "] and the keys pairwise distinct: [parse] on a fresh record
    returns [success] with method, url and version equal to the tokens,
    and the header map holds exactly the pairs of the input. *)
Theorem parse_well_formed M U V (hs : list (str * str)) :
  M ≠ [] → Forall is_token M → length M ≤ max_method_len →
  U ≠ [] → Forall is_token U → length U ≤ max_url_len →
  V ≠ [] → Forall is_token V → length V ≤ max_version_len →
  hs ≠ [] → Forall header_ok hs → NoDup hs.*1 →
  ∃ q,
    outcome (request M U V (header_line <$> hs))
            (length (request M U V (header_line <$> hs))) Request_new
      = Returned success q
    ∧ method q = M ∧ url q = U ∧ version q = V
    ∧ ∀ k v, headers q !! k = Some v ↔ (k, v) ∈ hs.
Proof.
  intros HM HMt HMl HU HUt HUl HV HVt HVl Hne Hok Hnd.
  eexists. split; [|split_and!].
  - apply parse_request_headers; try done.
    eapply Forall_impl; [exact HVt|]. by intros c (_ & ? & _).
  - done.
  - done.
  - done.
  - intros k v. simpl. symmetry. by apply elem_of_list_to_map.
Qed.

(** The sample request with its one header. *)
Lemma parse_well_formed_witness :
  ∃ q,
    outcome sample_ok (length sample_ok) Request_new = Returned success q
    ∧ method q = lit "GET" ∧ url q = lit "/x" ∧ version q = lit "HTTP/1.1"
    ∧ ∀ k v, headers q !! k = Some v ↔ (k, v) ∈ [(lit "Host", lit "example.com")].
Proof.
  apply (parse_well_formed (lit "GET") (lit "/x") (lit "HTTP/1.1")
           [(lit "Host", lit "example.com")]);
    try done; try by_eval; try (unfold max_method_len, max_url_len, max_version_len; simpl; lia).
  repeat constructor; try by_eval.
  apply find0_None_iff. reflexivity.
Defined.

(** C8: when the header lines of a well-formed request repeat a key, the
    map of a successful parse holds the value of the first line with that
    key: whatever lines follow it (the same key again included), the key
    [k] of the first line [k ": " v] not preceded by a line with key [k]
    is mapped to [v]. *)
Theorem first_occurrence_wins M U V (l1 l2 : list (str * str)) k v :
  M ≠ [] → Forall is_token M → length M ≤ max_method_len →
  U ≠ [] → Forall is_token U → length U ≤ max_url_len →
  V ≠ [] → Forall is_token V → length V ≤ max_version_len →
  Forall header_ok (l1 ++ (k, v) :: l2) → k ∉ l1.*1 →
  ∃ q,
    outcome (request M U V (header_line <$> l1 ++ (k, v) :: l2))
            (length (request M U V (header_line <$> l1 ++ (k, v) :: l2)))
            Request_new
      = Returned success q
    ∧ headers q !! k = Some v.
Proof.
  intros HM HMt HMl HU HUt HUl HV HVt HVl Hok Hk.
  eexists. split.
  - apply parse_request_headers; try done.
    + eapply Forall_impl; [exact HVt|]. by intros c (_ & ? & _).
    + by destruct l1.
  - simpl. by apply list_to_map_first.
Qed.

(** The key [a] given twice keeps the value of its first line. *)
Lemma first_occurrence_wins_witness :
  ∃ q,
    outcome sample_duplicate (length sample_duplicate) Request_new
      = Returned success q
    ∧ headers q !! lit "a" = Some (lit "1").
Proof.
  apply (first_occurrence_wins (lit "GET") (lit "/x") (lit "HTTP/1.1")
           [] [(lit "a", lit "2")] (lit "a") (lit "1"));
    try done; try by_eval; try (unfold max_method_len, max_url_len, max_version_len; simpl; lia).
  repeat constructor; try by_eval; apply find0_None_iff; reflexivity.
Defined.

(** C4: a request with a well-formed request line whose header block
    (non-empty lines free of CR and LF, each ended by CRLF, closed by the
    blank line) has a line without [": "] is rejected as a whole with
    [invalid_headers], wherever the line stands among well-formed ones and
    whatever follows the blank line. *)
Theorem malformed_line_rejected M U V (ls : list str) body len :
  M ≠ [] → Forall is_token M → length M ≤ max_method_len →
  U ≠ [] → Forall is_token U → length U ≤ max_url_len →
  V ≠ [] → Forall (λ c, c ≠ CR) V → length V ≤ max_version_len →
  Forall (λ l, l ≠ [] ∧ Forall is_text l) ls →
  Exists (λ l, ¬ contains l SEP) ls →
  length (request M U V ls) ≤ len →
  ∃ q, outcome (request M U V ls ++ body) len Request_new
         = Returned invalid_headers q.
Proof.
  intros HM HMt HMl HU HUt HUl HV HVt HVl Hls Hbad Hlen.
  destruct ls as [|l ls]; [by apply Exists_nil in Hbad|].
  destruct (parse_request_finish M U V l ls body len Request_new)
    as [j ->]; try done.
  unfold finish, split_headers. cbn [Loop.headers Loop.req].
  rewrite string_split_join.
  - cbn [mbind option_bind].
    pose proof (split_headers_loop_bad (l :: ls)
      {| method := M; url := U; version := V; headers := headers Request_new |}
      Hbad) as Hb.
    destruct (split_headers_loop _ _) as [[] q]; [done|by exists q].
  - eapply Forall_impl; [done|]. intros ? [_ ?]. by apply text_not_CR.
Qed.

(** A good line, then a line without separator, then a body. *)
Lemma malformed_line_rejected_witness :
  ∃ q, outcome (sample_bad_line ++ lit "body") (length sample_bad_line + 4) Request_new
         = Returned invalid_headers q.
Proof.
  apply (malformed_line_rejected (lit "GET") (lit "/x") (lit "HTTP/1.1")
           [lit "A: 1"; lit "X-Bad-Header"] (lit "body"));
    try done; try by_eval; try (unfold max_method_len, max_url_len, max_version_len; simpl; lia).
  apply Exists_cons_tl, Exists_cons_hd. apply find0_None_iff. reflexivity.
Defined.

(** C6, the failing input: a lone LF where the CRLF after the version is
    expected is not rejected.  The version state appends every byte but
    CR, so the LF and the line after it become part of the version, and
    the call returns [success]. *)
Theorem lone_lf_after_version_accepted :
  outcome sample_lone_lf (length sample_lone_lf) Request_new =
    Returned success
      {| method := lit "GET"; url := lit "/x";
         version := lit "HTTP/1.1" ++ [LF] ++ lit "Host: a";
         headers := {[ lit "B" := lit "c" ]} |}.
Proof. by vm_compute. Qed.

(** C5: each limit is reached without error and overrun by one byte more.
    For tokens [M], [U], [V] of at most 32, 1024 and 32 bytes and a further
    token byte [c], all read before [len]:
    - after [M] and a space the loop goes on in the url state with [M] as
      the method, also when [M] has exactly 32 bytes, and a byte [c] after
      a 32-byte [M] returns [method_too_long];
    - after [U] and a space the loop goes on in the version state, also
      when [U] has exactly 1024 bytes, and a byte [c] after a 1024-byte [U]
      returns [url_too_long];
    - after [V] and CRLF the loop goes on in the headers state, also when
      [V] has exactly 32 bytes, and a byte [c] after a 32-byte [V] returns
      [version_too_long]. *)
Theorem token_limits M U V c tail len :
  M ≠ [] → Forall is_token M → length M ≤ max_method_len →
  U ≠ [] → Forall is_token U → length U ≤ max_url_len →
  V ≠ [] → Forall (λ c, c ≠ CR) V → length V ≤ max_version_len →
  is_token c →
  let q1 := {| method := M; url := []; version := []; headers := ∅ |} in
  let q2 := {| method := M; url := U; version := []; headers := ∅ |} in
  let q3 := {| method := M; url := U; version := V; headers := ∅ |} in
  let d1 := M ++ SPACE :: tail in
  let d2 := M ++ SPACE :: U ++ SPACE :: tail in
  let d3 := M ++ SPACE :: U ++ SPACE :: V ++ CR :: LF :: tail in
  (length M < len →
     ∃ log, parse d1 len Request_new =
       run d1 len (Loop.mk (length M + 1) State.url [] false q1) log)
  ∧ (length M = max_method_len → length M < len →
     outcome (M ++ c :: tail) len Request_new = Returned method_too_long q1)
  ∧ (length M + length U + 1 < len →
     ∃ log, parse d2 len Request_new =
       run d2 len
         (Loop.mk (length M + length U + 2) State.version [] false q2) log)
  ∧ (length U = max_url_len → length M + length U + 1 < len →
     outcome (M ++ SPACE :: U ++ c :: tail) len Request_new
       = Returned url_too_long q2)
  ∧ (length M + length U + length V + 3 < len →
     ∃ log, parse d3 len Request_new =
       run d3 len
         (Loop.mk (length M + length U + length V + 4) State.headers [] false q3)
         log)
  ∧ (length V = max_version_len → length M + length U + length V + 2 < len →
     outcome (M ++ SPACE :: U ++ SPACE :: V ++ c :: tail) len Request_new
       = Returned version_too_long q3).
Proof.
  intros HM HMt HMl HU HUt HUl HV HVt HVl Hc. simpl. split_and!.
  - intros Hlen. by eapply method_left.
  - intros Hfull Hlen. by eapply method_overrun.
  - intros Hlen. by eapply url_left.
  - intros Hfull Hlen. by eapply url_overrun.
  - intros Hlen. by eapply version_left.
  - intros Hfull Hlen. by eapply version_overrun.
Qed.

(** The limits on tokens of exactly 32, 1024 and 32 bytes. *)
Lemma token_limits_witness :
  let M := M32 in let U := U1024 in let V := V32 in
  let c := "x"%char in let tail := lit "..." in let len := 2000 in
  let q1 := {| method := M; url := []; version := []; headers := ∅ |} in
  let q2 := {| method := M; url := U; version := []; headers := ∅ |} in
  let q3 := {| method := M; url := U; version := V; headers := ∅ |} in
  let d1 := M ++ SPACE :: tail in
  let d2 := M ++ SPACE :: U ++ SPACE :: tail in
  let d3 := M ++ SPACE :: U ++ SPACE :: V ++ CR :: LF :: tail in
  (∃ log, parse d1 len Request_new =
     run d1 len (Loop.mk (length M + 1) State.url [] false q1) log)
  ∧ outcome (M ++ c :: tail) len Request_new = Returned method_too_long q1
  ∧ (∃ log, parse d2 len Request_new =
     run d2 len (Loop.mk (length M + length U + 2) State.version [] false q2) log)
  ∧ outcome (M ++ SPACE :: U ++ c :: tail) len Request_new
      = Returned url_too_long q2
  ∧ (∃ log, parse d3 len Request_new =
     run d3 len
       (Loop.mk (length M + length U + length V + 4) State.headers [] false q3) log)
  ∧ outcome (M ++ SPACE :: U ++ SPACE :: V ++ c :: tail) len Request_new
      = Returned version_too_long q3.
Proof.
  intros M U V c tail len.
  assert (M ≠ []) as HM by (by vm_compute).
  assert (U ≠ []) as HU by (by vm_compute).
  assert (V ≠ []) as HV by (by vm_compute).
  assert (Forall is_token M) as HMt by by_eval.
  assert (Forall is_token U) as HUt by by_eval.
  assert (Forall (λ c, c ≠ CR) V) as HVt by by_eval.
  assert (length M = max_method_len) as HMl by reflexivity.
  assert (length U = max_url_len) as HUl by reflexivity.
  assert (length V = max_version_len) as HVl by reflexivity.
  assert (is_token c) as Hc by by_eval.
  assert (length M < len) as L1 by by_eval.
  assert (length M + length U + 1 < len) as L2 by by_eval.
  assert (length M + length U + length V + 3 < len) as L3 by by_eval.
  assert (length M + length U + length V + 2 < len) as L4 by by_eval.
  destruct (token_limits M U V c tail len HM HMt (Nat.eq_le_incl _ _ HMl)
              HU HUt (Nat.eq_le_incl _ _ HUl) HV HVt (Nat.eq_le_incl _ _ HVl) Hc)
    as (H1 & H2 & H3 & H4 & H5 & H6).
  exact (conj (H1 L1) (conj (H2 HMl L1) (conj (H3 L2) (conj (H4 HUl L2)
          (conj (H5 L3) (H6 HVl L4)))))).
Defined.

(** * Further properties of the code *)

(** ** [parse_result_str] *)

(** X1: the labels of the ten results are pairwise distinct, so a label
    identifies its result. *)
Theorem parse_result_str_inj r1 r2 :
  parse_result_str r1 = parse_result_str r2 → r1 = r2.
Proof. destruct r1, r2; first [done | vm_compute; discriminate]. Qed.

(** Equal labels, equal results. *)
Lemma parse_result_str_inj_witness :
  parse_result_str invalid_crlf = "invalid crlf" ∧ invalid_crlf = invalid_crlf.
Proof.
  split; [reflexivity|].
  apply (parse_result_str_inj invalid_crlf invalid_crlf). reflexivity.
Defined.

(** X2: the [default] arm of the switch is taken exactly by the values
    that are no enumerator (below 0 or above 9); no result of the
    enumeration is rendered as the unknown error. *)
Theorem parse_result_label_unknown n :
  parse_result_label n = "unknown parse error" ↔ (n < 0 ∨ 9 < n)%Z.
Proof.
  unfold parse_result_label, ParseResult_of_code.
  repeat match goal with
    | |- context [(n =? ?k)%Z] =>
        destruct (Z.eqb_spec n k) as [->|?];
          [simpl; split; [done|intros [?|?]; lia]|]
    end.
  split; [intros _; lia|done].
Qed.

(** ** [string_split] *)

Lemma join_tokens_cons d t (ts : list str) :
  ts ≠ [] → join_tokens d (t :: ts) = t ++ d ++ join_tokens d ts.
Proof. by destruct ts. Qed.

(** What the loop of [string_split] returns from [start] on. *)
Lemma string_split_loop_spec fuel (s d : str) tokens start res :
  d ≠ [] → start ≤ length s →
  string_split_loop fuel s d tokens start (find s d start) = Some res →
  ∃ ts, res = tokens ++ ts ∧ ts ≠ [] ∧ join_tokens d ts = drop start s
        ∧ Forall (λ t, ¬ contains t d) ts.
Proof.
  intros Hd. revert tokens start.
  induction fuel as [|fuel IH]; intros tokens start Hstart;
    unfold find; rewrite bool_decide_true by done;
    destruct (find0 d (drop start s)) as [p|] eqn:E; simpl; try done.
  - intros [= <-]. exists [drop start s]. split_and!; try done.
    apply Forall_singleton. by apply find0_None_iff.
  - pose proof (find0_bound _ _ _ E) as Hb. rewrite length_drop in Hb.
    pose proof (find0_prefix _ _ _ E) as [k Hk].
    intros Hres. apply IH in Hres as (ts & -> & Hne & Hjoin & Hfree); [|lia].
    exists (substr s start (start + p - start) :: ts).
    replace (start + p - start) with p by lia. unfold substr.
    split_and!.
    + by rewrite <-app_assoc.
    + done.
    + rewrite join_tokens_cons, Hjoin by done.
      replace (drop (start + p + length d) s) with k.
      { by rewrite <-Hk, take_drop. }
      replace (start + p + length d) with (start + (p + length d)) by lia.
      by rewrite <-!drop_drop, Hk, drop_app_length.
    + apply Forall_cons. split; [|done].
      intros (a & b & Hab).
      assert (length a < p) as Ha.
      { apply (f_equal length) in Hab.
        rewrite length_take, !length_app in Hab.
        destruct d; [done|]. simpl in Hab. lia. }
      apply (find0_first _ _ _ _ E Ha).
      rewrite <-(take_drop p (drop start s)), Hab, <-!app_assoc, drop_app_length.
      by apply prefix_app_r.
  - intros [= <-]. exists [drop start s]. split_and!; try done.
    apply Forall_singleton. by apply find0_None_iff.
Qed.

(** X3: for a non-empty delimiter [string_split] returns at least one
    token, and the tokens joined by the delimiter are the string that was
    split. *)
Theorem string_split_roundtrip (s d : str) :
  d ≠ [] →
  ∃ tokens, string_split s d = Some tokens ∧ tokens ≠ []
            ∧ join_tokens d tokens = s.
Proof.
  intros Hd. destruct (string_split_total s d Hd) as [tokens Ht].
  exists tokens. split; [done|].
  apply string_split_loop_spec in Ht as (ts & -> & ? & ? & _); [|done|lia].
  by rewrite drop_0 in *.
Qed.

(** A header text of two lines and the empty line after the last CRLF. *)
Lemma string_split_roundtrip_witness :
  ∃ tokens, string_split (lit "A: 1" ++ CRLF ++ lit "B: 2" ++ CRLF) CRLF
              = Some tokens ∧ tokens ≠ []
            ∧ join_tokens CRLF tokens = lit "A: 1" ++ CRLF ++ lit "B: 2" ++ CRLF.
Proof. apply (string_split_roundtrip _ CRLF). by vm_compute. Defined.

(** X4: no token returned by [string_split] contains the delimiter. *)
Theorem string_split_tokens_free (s d : str) tokens :
  d ≠ [] → string_split s d = Some tokens →
  Forall (λ t, ¬ contains t d) tokens.
Proof.
  intros Hd Ht.
  by apply string_split_loop_spec in Ht as (ts & -> & _ & _ & ?); [|done|lia].
Qed.

(** The tokens of a two-line header text are free of CRLF. *)
Lemma string_split_tokens_free_witness :
  let s := lit "A: 1" ++ CRLF ++ lit "B: 2" in
  string_split s CRLF = Some [lit "A: 1"; lit "B: 2"]
  ∧ Forall (λ t, ¬ contains t CRLF) [lit "A: 1"; lit "B: 2"].
Proof.
  split; [by vm_compute|].
  apply (string_split_tokens_free (lit "A: 1" ++ CRLF ++ lit "B: 2") CRLF);
    by vm_compute.
Defined.

(** X5: lines free of CR, joined by CRLF, are split back into the same
    lines. *)
Theorem string_split_of_join l (ls : list str) :
  Forall (λ l, CR ∉ l) (l :: ls) →
  string_split (join_crlf l ls) CRLF = Some (l :: ls).
Proof. apply string_split_join. Qed.

(** Two lines. *)
Lemma string_split_of_join_witness :
  string_split (join_crlf (lit "A: 1") [lit "B: 2"]) CRLF
    = Some [lit "A: 1"; lit "B: 2"].
Proof. apply (string_split_of_join (lit "A: 1") [lit "B: 2"]). by_eval. Defined.

(** ** [split_headers] *)

Lemma find0_take_free (s d : str) p :
  d ≠ [] → find0 d s = Some p → ¬ contains (take p s) d.
Proof.
  intros Hd E (a & b & Hab).
  assert (length a < p) as Ha.
  { apply (f_equal length) in Hab. rewrite length_take, !length_app in Hab.
    destruct d; [done|]. simpl in Hab. lia. }
  apply (find0_first _ _ _ _ E Ha).
  rewrite <-(take_drop p s), Hab, <-!app_assoc, drop_app_length.
  by apply prefix_app_r.
Qed.

Lemma split_headers_loop_true_iff (tokens : list str) q :
  (split_headers_loop tokens q).1 = true ↔ Forall (λ l, contains l SEP) tokens.
Proof.
  revert q. induction tokens as [|t tokens IH]; intros q; simpl.
  - split; [by constructor|done].
  - rewrite find_0. destruct (find0 SEP t) as [p|] eqn:E; simpl.
    + rewrite IH, Forall_cons. split; [|by intros [_ ?]].
      intros ?. split; [|done]. by eapply find0_contains.
    + split; [done|]. intros [Hc _]%Forall_cons.
      by apply find0_None_iff in E.
Qed.

(** X6: [split_headers] returns [true] exactly when every line of the
    header text (the tokens between CRLFs) contains [": "]. *)
Theorem split_headers_accepts (s : str) q :
  ∃ tokens b q',
    string_split s CRLF = Some tokens ∧ split_headers s q = Some (b, q')
    ∧ (b = true ↔ Forall (λ l, contains l SEP) tokens).
Proof.
  destruct (string_split_total s CRLF) as [tokens Ht]; [done|].
  exists tokens, (split_headers_loop tokens q).1, (split_headers_loop tokens q).2.
  split_and!; [done| |apply split_headers_loop_true_iff].
  unfold split_headers. rewrite Ht. simpl. by destruct (split_headers_loop _ _).
Qed.

(** X7: whatever it returns, [split_headers] leaves method, url and
    version alone and never removes or overwrites a header entry that was
    in the record before the call. *)
Theorem split_headers_frame (s : str) q b q' :
  split_headers s q = Some (b, q') →
  method q' = method q ∧ url q' = url q ∧ version q' = version q
  ∧ ∀ k v, headers q !! k = Some v → headers q' !! k = Some v.
Proof.
  unfold split_headers.
  destruct (string_split s CRLF) as [tokens|]; simpl; [|done].
  intros [= Hl]. apply split_headers_loop_req in Hl as (? & ? & ? & Hsub).
  split_and!; try done. intros k v Hk. by eapply lookup_weaken.
Qed.

(** A record that already maps [Host] keeps its entry. *)
Lemma split_headers_frame_witness :
  let q := {| method := lit "GET"; url := []; version := [];
              headers := {[ lit "Host" := lit "old" ]} |} in
  let q' := {| method := lit "GET"; url := []; version := [];
               headers := {[ lit "Host" := lit "old"; lit "B" := lit "2" ]} |} in
  split_headers (lit "Host: new" ++ CRLF ++ lit "B: 2") q = Some (true, q')
  ∧ (method q' = method q ∧ url q' = url q ∧ version q' = version q
     ∧ ∀ k v, headers q !! k = Some v → headers q' !! k = Some v).
Proof.
  intros q q'. split; [by vm_compute|].
  apply (split_headers_frame (lit "Host: new" ++ CRLF ++ lit "B: 2") q true q').
  by vm_compute.
Defined.



(** X9: a line that contains [": "] is entered under the key before its
    first [": "] with the rest after it as the value: key, [": "] and
    value make up the line, and the key does not contain [": "]. *)
Theorem split_headers_line (t : str) :
  contains t SEP →
  ∃ k v, t = k ++ SEP ++ v ∧ ¬ contains k SEP
         ∧ ∀ q, split_headers_loop [t] q = (true, emplace_header q k v).
Proof.
  intros [p Hp]%contains_find0.
  exists (substr t 0 p), (substr_from t (p + 2)). split_and!.
  - destruct (find0_prefix _ _ _ Hp) as [k Hk].
    unfold substr, substr_from. rewrite drop_0.
    rewrite <-(take_drop p t) at 1. f_equal.
    rewrite Hk. f_equal. by rewrite <-drop_drop, Hk.
  - unfold substr. rewrite drop_0. by apply find0_take_free.
  - intros q. simpl. by rewrite find_0, Hp.
Qed.

(** The value may itself contain the separator. *)
Lemma split_headers_line_witness :
  ∃ k v, lit "a: b: c" = k ++ SEP ++ v ∧ ¬ contains k SEP
         ∧ ∀ q, split_headers_loop [lit "a: b: c"] q = (true, emplace_header q k v).
Proof.
  apply (split_headers_line (lit "a: b: c")). by exists (lit "a"), (lit "b: c").
Defined.

Lemma join_tokens_join_crlf l (ls : list str) :
  join_tokens CRLF (l :: ls) = join_crlf l ls.
Proof.
  revert l. induction ls as [|l' ls IH]; intros l; [done|].
  by rewrite join_tokens_cons, IH.
Qed.

Lemma split_headers_lines_ok (hs : list (str * str)) q :
  hs ≠ [] →
  Forall (λ kv, (CR ∉ fst kv) ∧ (CR ∉ snd kv) ∧ ¬ contains (fst kv) SEP) hs →
  split_headers (join_tokens CRLF (header_line <$> hs)) q =
    Some (true, {| method := method q; url := url q; version := version q;
                   headers := headers q ∪ list_to_map hs |}).
Proof.
  intros Hne Hok.
  assert (Forall (λ l, CR ∉ l) (header_line <$> hs)) as HCR.
  { apply Forall_fmap. eapply Forall_impl; [done|].
    intros [k v] (Hk & Hv & _). unfold header_line. simpl in *.
    rewrite not_elem_of_app, !not_elem_of_cons. by split_and!. }
  assert (Forall (λ kv, ¬ contains kv.1 SEP) hs) as Hsep.
  { eapply Forall_impl; [done|]. by intros ? (_ & _ & ?). }
  unfold split_headers.
  destruct (header_line <$> hs) as [|l ls] eqn:Els; [by destruct hs|].
  rewrite join_tokens_join_crlf, string_split_join by done.
  cbn [mbind option_bind]. by rewrite <-Els, split_headers_loop_lines.
Qed.

(** X10: the text made of lines [KEY ": " VALUE] joined by CRLF, with keys
    and values free of CR and keys free of [": "], is accepted, and the
    header map becomes the entries already in the record, then for each
    new key the value of its first line. *)
Theorem split_headers_of_lines (hs : list (str * str)) q :
  hs ≠ [] →
  Forall (λ kv, (CR ∉ fst kv) ∧ (CR ∉ snd kv) ∧ ¬ contains (fst kv) SEP) hs →
  split_headers (join_tokens CRLF (header_line <$> hs)) q =
    Some (true, {| method := method q; url := url q; version := version q;
                   headers := headers q ∪ list_to_map hs |}).
Proof. apply split_headers_lines_ok. Qed.

(** A repeated key and a key that the record already holds. *)
Lemma split_headers_of_lines_witness :
  let q := {| method := []; url := []; version := [];
              headers := {[ lit "Host" := lit "old" ]} |} in
  let hs := [(lit "a", lit "1"); (lit "Host", lit "new"); (lit "a", lit "2")] in
  split_headers (join_tokens CRLF (header_line <$> hs)) q =
    Some (true, {| method := []; url := []; version := [];
                   headers := headers q ∪ list_to_map hs |})
  ∧ (headers q ∪ list_to_map hs : gmap str str)
    = {[ lit "Host" := lit "old"; lit "a" := lit "1" ]}.
Proof.
  intros q hs. split; [|by vm_compute].
  apply (split_headers_of_lines hs q); [done|].
  repeat constructor; simpl; try by_eval; apply find0_None_iff; reflexivity.
Defined.

(** ** [parse]: only the first [len] bytes matter *)

Lemma string_at_take (data data' : str) len k :
  take len data = take len data' → k < len →
  string_at data k = string_at data' k.
Proof.
  intros Ht Hk. unfold string_at.
  assert (data !! k = data' !! k) as Hlk.
  { by rewrite <-(lookup_take_lt data len k), <-(lookup_take_lt data' len k), Ht. }
  rewrite <-Hlk. destruct (data !! k) as [c|] eqn:E; [done|].
  apply lookup_ge_None in E. symmetry in Hlk. apply lookup_ge_None in Hlk.
  apply (f_equal length) in Ht. rewrite !length_take in Ht.
  assert (length data = length data') as -> by lia. done.
Qed.

Lemma step_agree data data' len st log :
  (∀ k, k < len → string_at data k = string_at data' k) →
  Loop.i st < len →
  step data len st log = step data' len st log.
Proof.
  intros H Hi. destruct st as [i state hs stop q]. simpl in Hi.
  unfold step, rd_bind, rd_ret, at_. rewrite (H i Hi).
  destruct (string_at data' i) as [c|]; [|done].
  destruct state; try done.
  - destruct (ceq c CR); [|done].
    destruct (bool_decide (version q = [])); [done|].
    case_bool_decide; [done|]. by rewrite (H (i + 1)) by lia.
  - destruct (ceq c CR); [|done].
    case_bool_decide; [done|]. rewrite (H (i + 1)) by lia.
    destruct (string_at data' (i + 1)) as [c1|]; [|done]. simpl.
    destruct (negb (ceq c1 LF)); [done|].
    case_bool_decide; [|done]. rewrite (H (i + 2)) by lia.
    destruct (string_at data' (i + 2)) as [c2|]; [|done]. simpl.
    destruct (ceq c2 CR); [|done].
    case_bool_decide; [|done]. by rewrite (H (i + 3)) by lia.
Qed.

Lemma loop_agree fuel data data' len st log :
  (∀ k, k < len → string_at data k = string_at data' k) →
  loop fuel data len st log = loop fuel data' len st log.
Proof.
  intros H. revert st log. induction fuel as [|fuel IH]; intros st log; [done|].
  simpl. case_bool_decide as Hi; simpl; [|done].
  destruct (Loop.stop st); simpl; [done|].
  rewrite (step_agree data data' len st log H Hi).
  destruct (step data' len st log) as [[[st'|r q]|] log']; by rewrite ?IH.
Qed.

(** X11: [parse] depends on the buffer through its first [len] bytes only:
    two buffers that agree there give the same result, the same record
    and the same reads. *)
Theorem parse_prefix_only (data data' : str) len req :
  take len data = take len data' →
  parse data len req = parse data' len req.
Proof.
  intros Ht. apply loop_agree. intros k Hk. by eapply string_at_take.
Qed.

(** The same four bytes, then different ones. *)
Lemma parse_prefix_only_witness :
  parse (sample_cut ++ lit "xyz") 4 Request_new
  = parse (sample_cut ++ lit "HTTP") 4 Request_new.
Proof.
  apply (parse_prefix_only (sample_cut ++ lit "xyz") (sample_cut ++ lit "HTTP") 4).
  reflexivity.
Defined.

(** ** [parse]: what the record can hold *)

(** Turns the tests recorded by [step_cases] into propositions. *)
Ltac step_facts :=
  unfold ceq in *;
  repeat match goal with
    | H : _ || _ = false |- _ => apply orb_false_elim in H as [? ?]
    | H : negb _ = false |- _ => apply negb_false_iff in H
    | H : negb _ = true |- _ => apply negb_true_iff in H
    | H : bool_decide _ = true |- _ => apply bool_decide_eq_true in H
    | H : bool_decide _ = false |- _ => apply bool_decide_eq_false in H
    end.

Lemma step_clean data len st log st' log' :
  step data len st log = (Some (Continue st'), log') →
  clean (Loop.req st) → clean (Loop.req st').
Proof.
  intros Hs. destruct st as [i state hs stop q]. unfold clean, is_token.
  step_cases; step_facts; try done;
    unfold push_method, push_url, push_version; simpl;
    rewrite ?Forall_app, ?Forall_singleton; intros (?&?&?); by split_and!.
Qed.

Lemma run_clean data len st log r q :
  clean (Loop.req st) → (run data len st log).1 = Returned r q → clean q.
Proof.
  revert st log.
  apply (run_ind data len
    (λ st _ o, clean (Loop.req st) → o.1 = Returned r q → clean q));
    simpl; try done.
  - intros st log _ Hc Hf.
    apply finish_inv in Hf as (tokens & b & _ & Hloop & _).
    apply split_headers_loop_req in Hloop as (Hm & Hu & Hv & _).
    unfold clean. by rewrite Hm, Hu, Hv.
  - intros st log r' q' log' _ _ Hs Hc [= -> ->].
    by rewrite (step_return_req _ _ _ _ _ _ _ Hs).
  - eauto using step_clean.
Qed.

(** X12: whatever [parse] returns, the record holds no space, CR or LF in
    method and url and no CR in the version, provided it held none on
    entry (a fresh record holds none). *)
Theorem parse_record_bytes data len req r q :
  clean req → outcome data len req = Returned r q → clean q.
Proof. unfold outcome. rewrite parse_run. apply (run_clean data len (init req)). Qed.

(** The record left by the sample request. *)
Lemma parse_record_bytes_witness :
  let q := {| method := lit "GET"; url := lit "/x"; version := lit "HTTP/1.1";
              headers := {[ lit "Host" := lit "example.com" ]} |} in
  clean Request_new
  ∧ outcome sample_ok (length sample_ok) Request_new = Returned success q
  ∧ clean q.
Proof.
  intros q.
  assert (clean Request_new) as Hnew by (by repeat constructor).
  assert (outcome sample_ok (length sample_ok) Request_new = Returned success q)
    as Hout by (by vm_compute).
  split_and!; [done..|].
  exact (parse_record_bytes sample_ok (length sample_ok) Request_new success q
           Hnew Hout).
Defined.

(** ** [parse]: a success spells out the request line *)

Lemma string_at_lookup (data : str) k c :
  k < length data → string_at data k = Some c → data !! k = Some c.
Proof.
  intros Hk. unfold string_at.
  by destruct (lookup_lt_is_Some_2 data k Hk) as [c' ->].
Qed.

Lemma take_next (data : str) k c :
  k < length data → string_at data k = Some c →
  take (k + 1) data = take k data ++ [c].
Proof.
  intros Hk Hc. rewrite Nat.add_1_r.
  by apply take_S_r, string_at_lookup.
Qed.

Lemma Shape_init data : Shape data (init Request_new).
Proof. unfold Shape. simpl. by rewrite take_0. Qed.

Lemma step_Shape data len st log st' log' :
  step data len st log = (Some (Continue st'), log') →
  Loop.i st < len → len ≤ length data →
  Shape data st → Shape data st'.
Proof.
  intros Hs Hi Hlen. destruct st as [i state hs stop q]. unfold Shape.
  simpl in Hi.
  step_cases; step_facts; try done;
    repeat match goal with
      | H : string_at data ?k = Some ?c |- _ =>
          apply take_next in H; [|lia]
      end;
    unfold push_method, push_url, push_version, request_line; simpl;
    intros; destruct_and?; split_and?; try done;
    try (exists (drop (i + 1 + 1) data);
         rewrite <-(take_drop (i + 1 + 1) data) at 1; f_equal);
    repeat match goal with
      | H : take _ data = _ |- _ => rewrite H; clear H
      | H : url q = [] |- _ => rewrite H; clear H
      | H : version q = [] |- _ => rewrite H; clear H
      | H : _ = SPACE |- _ => rewrite H; clear H
      | H : _ = CR |- _ => rewrite H; clear H
      | H : _ = LF |- _ => rewrite H; clear H
      end;
    by repeat (rewrite <-app_assoc; simpl).
Qed.

Lemma run_success_shape data len st log q :
  len ≤ length data → Inv st → Shape data st →
  (run data len st log).1 = Returned success q →
  request_line q `prefix_of` data.
Proof.
  intros Hlen. revert st log.
  apply (run_ind data len
    (λ st _ o, Inv st → Shape data st → o.1 = Returned success q → _));
    simpl; try done.
  - intros st log _ (_ & _ & _ & Hst) Hsh Hf.
    apply finish_inv in Hf as (tokens & b & Hsplit & Hloop & Hb).
    destruct b; [|done].
    assert (Loop.headers st ≠ []) as Hne.
    { intros E. rewrite E in Hsplit.
      by destruct (split_headers_empty _ _ _ _ Hsplit Hloop). }
    apply split_headers_loop_req in Hloop as (Hm & Hu & Hv & _).
    unfold Shape in Hsh. unfold request_line. rewrite Hm, Hu, Hv.
    destruct (Loop.state st); destruct_and?; done.
  - intros st log r q' log' _ _ Hs _ _ [= -> ->].
    exfalso. by eapply step_not_success.
  - intros st log st' log' Hi _ Hs IH HI Hsh. apply IH.
    + by eapply step_Inv.
    + by eapply step_Shape.
Qed.

(** X13: when [len] does not exceed the size of the buffer and [parse]
    succeeds on a fresh record, the buffer begins with the request line
    the record spells: method, space, url, space, version, CR, LF. *)
Theorem parse_success_request_line (data : str) len q :
  len ≤ length data →
  outcome data len Request_new = Returned success q →
  ∃ rest, data = method q ++ SPACE :: url q ++ SPACE :: version q
                 ++ CR :: LF :: rest.
Proof.
  intros Hlen. unfold outcome. rewrite parse_run. intros Hr.
  eapply run_success_shape in Hr as [rest ->];
    [|done|apply Inv_init|apply Shape_init].
  exists rest. unfold request_line.
  by repeat (rewrite <-app_assoc; simpl).
Qed.

(** The lone LF of [sample_lone_lf] is part of the version it spells. *)
Lemma parse_success_request_line_witness :
  let q := {| method := lit "GET"; url := lit "/x";
              version := lit "HTTP/1.1" ++ [LF] ++ lit "Host: a";
              headers := {[ lit "B" := lit "c" ]} |} in
  ∃ rest, sample_lone_lf = method q ++ SPACE :: url q ++ SPACE :: version q
                           ++ CR :: LF :: rest.
Proof.
  intros q.
  apply (parse_success_request_line sample_lone_lf (length sample_lone_lf) q).
  - lia.
  - by vm_compute.
Defined.

(** ** [parse]: the error arms *)

Section error_arms.
Context (data : str) (len : nat).
Context (i : nat) (hs : str) (stop : bool) (q : Request) (log : list nat).

Ltac eval_arm H :=
  unfold step, rd_bind, rd_ret, at_, ceq; simpl; rewrite ?H; simpl;
  repeat first
    [ rewrite bool_decide_true by (done || lia)
    | rewrite bool_decide_false by (done || lia) ];
  simpl; try done.

Lemma step_method_space_empty :
  string_at data i = Some SPACE → method q = [] →
  step data len (Loop.mk i State.method hs stop q) log =
    (Some (Return invalid_method q), log ++ [i]).
Proof. intros H ?. eval_arm H. Qed.

Lemma step_url_space_empty :
  string_at data i = Some SPACE → url q = [] →
  step data len (Loop.mk i State.url hs stop q) log =
    (Some (Return invalid_url q), log ++ [i]).
Proof. intros H ?. eval_arm H. Qed.

Lemma step_method_break c :
  string_at data i = Some c → c = CR ∨ c = LF →
  step data len (Loop.mk i State.method hs stop q) log =
    (Some (Return invalid_format q), log ++ [i]).
Proof. intros H [->| ->]; eval_arm H. Qed.

Lemma step_url_break c :
  string_at data i = Some c → c = CR ∨ c = LF →
  step data len (Loop.mk i State.url hs stop q) log =
    (Some (Return invalid_format q), log ++ [i]).
Proof. intros H [->| ->]; eval_arm H. Qed.

Lemma step_version_cr_empty :
  string_at data i = Some CR → version q = [] →
  step data len (Loop.mk i State.version hs stop q) log =
    (Some (Return invalid_format q), log ++ [i]).
Proof. intros H ?. eval_arm H. Qed.

Lemma step_version_cr_end :
  string_at data i = Some CR → version q ≠ [] → len ≤ i + 1 →
  step data len (Loop.mk i State.version hs stop q) log =
    (Some (Return invalid_format q), log ++ [i]).
Proof. intros H ? ?. eval_arm H. Qed.

Lemma step_headers_cr_end :
  string_at data i = Some CR → len ≤ i + 1 →
  step data len (Loop.mk i State.headers hs stop q) log =
    (Some (Return invalid_format q), log ++ [i]).
Proof. intros H ?. eval_arm H. Qed.

Lemma step_headers_cr_other x :
  string_at data i = Some CR → string_at data (i + 1) = Some x → x ≠ LF →
  i + 1 < len →
  step data len (Loop.mk i State.headers hs stop q) log =
    (Some (Return invalid_format q), (log ++ [i]) ++ [i + 1]).
Proof. intros H H1 ? ?. eval_arm H. eval_arm H1. Qed.

Lemma step_headers_eol_end :
  string_at data i = Some CR → string_at data (i + 1) = Some LF →
  i + 1 < len → len ≤ i + 2 →
  step data len (Loop.mk i State.headers hs stop q) log =
    (Some (Continue (Loop.mk (i + 2) State.headers (hs ++ CRLF) stop q)),
     (log ++ [i]) ++ [i + 1]).
Proof. intros H H1 ? ?. eval_arm H. eval_arm H1. Qed.

End error_arms.

Lemma string_at_eq (data pre : str) c tail n :
  data = pre ++ c :: tail → n = length pre → string_at data n = Some c.
Proof. intros -> ->. eapply string_at_drop. apply drop_app_length. Qed.

(** Proves [string_at data n = Some c] for the byte right after [pre]. *)
Ltac at_pos pre :=
  eapply (string_at_eq _ pre);
  [ repeat (rewrite <-app_assoc; simpl); done
  | repeat (rewrite length_app; simpl); simpl; lia ].

(** The same for a buffer described by [Hd : data = ...]. *)
Ltac at_pos_in Hd pre :=
  eapply (string_at_eq _ pre);
  [ rewrite Hd; repeat (rewrite <-app_assoc; simpl); done
  | repeat (rewrite length_app; simpl); simpl; lia ].

(** X14: a buffer that begins with a space, read into a record whose
    method is empty, is rejected with [invalid_method] at its first byte;
    the record is left as it was. *)
Theorem parse_empty_method (tail : str) len req :
  0 < len → method req = [] →
  parse (SPACE :: tail) len req = (Returned invalid_method req, [0]).
Proof.
  intros Hlen Hm. rewrite parse_run, run_unfold by done. unfold init.
  by rewrite step_method_space_empty.
Qed.

(** [" /x HTTP/1.1\r\n\r\n"]. *)
Lemma parse_empty_method_witness :
  parse (SPACE :: lit "/x HTTP/1.1" ++ CRLF ++ CRLF) 16 Request_new
  = (Returned invalid_method Request_new, [0]).
Proof. apply parse_empty_method; [lia|done]. Defined.

(** X15: a valid method followed by two spaces (an empty target) is
    rejected with [invalid_url]; the record holds the method. *)
Theorem parse_empty_url (M tail : str) len :
  valid_method M → length M + 1 < len →
  outcome (M ++ SPACE :: SPACE :: tail) len Request_new
  = Returned invalid_url (record_of M [] []).
Proof.
  intros (HM & HMt & HMl) Hlen. unfold outcome.
  destruct (method_left len M HM HMt HMl _ (SPACE :: tail) eq_refl) as [log ->];
    [lia|].
  rewrite run_unfold by (simpl; done || lia).
  rewrite step_url_space_empty; [done| |done].
  at_pos (M ++ [SPACE]).
Qed.

(** ["GET  HTTP/1.1\r\n\r\n"]. *)
Lemma parse_empty_url_witness :
  outcome (lit "GET" ++ SPACE :: SPACE :: lit "HTTP/1.1" ++ CRLF ++ CRLF) 17
          Request_new
  = Returned invalid_url (record_of (lit "GET") [] []).
Proof.
  apply (parse_empty_url (lit "GET") (lit "HTTP/1.1" ++ CRLF ++ CRLF) 17).
  - split_and!; [done|by_eval|by_eval].
  - by_eval.
Defined.

(** X16: a CR or LF met while the method or the url is being read is
    rejected with [invalid_format], whatever was read before it. *)
Theorem parse_line_break_in_token (M U tail : str) c len :
  c = CR ∨ c = LF →
  Forall is_token M → length M ≤ max_method_len →
  Forall is_token U → length U ≤ max_url_len →
  (length M < len →
   outcome (M ++ c :: tail) len Request_new
   = Returned invalid_format (record_of M [] []))
  ∧ (M ≠ [] → length M + length U + 1 < len →
     outcome (M ++ SPACE :: U ++ c :: tail) len Request_new
     = Returned invalid_format (record_of M U [])).
Proof.
  intros Hc HMt HMl HUt HUl. unfold outcome. split.
  - intros Hlen.
    destruct (method_read len M HMt HMl _ (c :: tail) eq_refl) as [log ->];
      [lia|].
    rewrite run_unfold by (simpl; done || lia).
    rewrite (step_method_break _ _ _ _ _ _ _ c); [done| |done].
    at_pos M.
  - intros HM Hlen.
    destruct (url_read len M HM HMt HMl U HUt HUl _ (c :: tail) eq_refl)
      as [log ->]; [lia|].
    rewrite run_unfold by (simpl; done || lia).
    rewrite (step_url_break _ _ _ _ _ _ _ c); [done| |done].
    at_pos (M ++ SPACE :: U).
Qed.

(** ["GE\nT ..."] and ["GET /x\r\n"]. *)
Lemma parse_line_break_in_token_witness :
  outcome (lit "GE" ++ LF :: lit "T /x") 7 Request_new
  = Returned invalid_format (record_of (lit "GE") [] [])
  ∧ outcome (lit "GET" ++ SPACE :: lit "/x" ++ CR :: [LF]) 8 Request_new
    = Returned invalid_format (record_of (lit "GET") (lit "/x") []).
Proof.
  split.
  - refine (proj1 (parse_line_break_in_token (lit "GE") [] (lit "T /x") LF 7
                     (or_intror eq_refl) _ _ _ _) _); by_eval.
  - refine (proj2 (parse_line_break_in_token (lit "GET") (lit "/x") [LF] CR 8
                     (or_introl eq_refl) _ _ _ _) _ _); by_eval || done.
Defined.

(** X17: a CR right after the second space (an empty version) is rejected
    with [invalid_format]. *)
Theorem parse_empty_version (M U tail : str) len :
  valid_method M → valid_url U → length M + length U + 2 < len →
  outcome (M ++ SPACE :: U ++ SPACE :: CR :: tail) len Request_new
  = Returned invalid_format (record_of M U []).
Proof.
  intros (HM & HMt & HMl) (HU & HUt & HUl) Hlen. unfold outcome.
  destruct (url_left len M HM HMt HMl U HU HUt HUl _ (CR :: tail) eq_refl)
    as [log ->]; [lia|].
  rewrite run_unfold by (simpl; done || lia).
  rewrite step_version_cr_empty; [done| |done].
  at_pos (M ++ SPACE :: U ++ [SPACE]).
Qed.

(** ["GET /x \r\n\r\n"]. *)
Lemma parse_empty_version_witness :
  outcome (lit "GET" ++ SPACE :: lit "/x" ++ SPACE :: CR :: LF :: CRLF) 11
          Request_new
  = Returned invalid_format (record_of (lit "GET") (lit "/x") []).
Proof.
  apply (parse_empty_version (lit "GET") (lit "/x") (LF :: CRLF) 11).
  - split_and!; [done|by_eval|by_eval].
  - split_and!; [done|by_eval|by_eval].
  - by_eval.
Defined.

(** X18: when the CR that ends the version is the last byte within [len],
    the call returns [invalid_format]: the LF is not looked for beyond
    [len]. *)
Theorem parse_cut_after_cr (M U V tail : str) :
  valid_method M → valid_url U → valid_version V →
  outcome (M ++ SPACE :: U ++ SPACE :: V ++ CR :: tail)
          (length M + length U + length V + 3) Request_new
  = Returned invalid_format (record_of M U V).
Proof.
  intros (HM & HMt & HMl) (HU & HUt & HUl) (HV & HVt & HVl). unfold outcome.
  destruct (version_read (length M + length U + length V + 3)
              M HM HMt HMl U HU HUt HUl V HVt HVl _ (CR :: tail) eq_refl)
    as [log ->]; [lia|].
  rewrite run_unfold by (simpl; done || lia).
  rewrite step_version_cr_end; [done| |done|lia].
  at_pos (M ++ SPACE :: U ++ SPACE :: V).
Qed.

(** ["GET /x HTTP/1.1\r"], also when an LF lies beyond [len]. *)
Lemma parse_cut_after_cr_witness :
  outcome (lit "GET" ++ SPACE :: lit "/x" ++ SPACE :: lit "HTTP/1.1" ++ CR :: [LF])
          16 Request_new
  = Returned invalid_format (record_of (lit "GET") (lit "/x") (lit "HTTP/1.1")).
Proof.
  apply (parse_cut_after_cr (lit "GET") (lit "/x") (lit "HTTP/1.1") [LF]);
    split_and!; done || by_eval.
Defined.

(** X19: a CR that ends a non-empty version and is followed, within
    [len], by a byte other than LF is rejected with [invalid_crlf]. *)
Theorem parse_cr_without_lf (M U V tail : str) x len :
  valid_method M → valid_url U → valid_version V → x ≠ LF →
  length M + length U + length V + 3 < len →
  outcome (M ++ SPACE :: U ++ SPACE :: V ++ CR :: x :: tail) len Request_new
  = Returned invalid_crlf (record_of M U V).
Proof.
  intros (HM & HMt & HMl) (HU & HUt & HUl) (HV & HVt & HVl) Hx Hlen.
  by eapply version_cr_without_lf.
Qed.

(** ["GET /x HTTP/1.1\rHost: a"]. *)
Lemma parse_cr_without_lf_witness :
  outcome (lit "GET" ++ SPACE :: lit "/x" ++ SPACE :: lit "HTTP/1.1"
             ++ CR :: "H"%char :: lit "ost: a") 23 Request_new
  = Returned invalid_crlf (record_of (lit "GET") (lit "/x") (lit "HTTP/1.1")).
Proof.
  apply (parse_cr_without_lf (lit "GET") (lit "/x") (lit "HTTP/1.1")
           (lit "ost: a") "H"%char 23);
    try (split_and!; done || by_eval); [done|by_eval].
Defined.

(** X20: a buffer that ends ([len]) before the CR of the request line,
    while the method, the url or the version is still being read, is not
    reported as a format error: the loop ends, the header text is empty,
    and the call returns [invalid_headers] with the tokens read so far. *)
Theorem parse_cut_in_request_line (M U V tail : str) :
  Forall is_token M → length M ≤ max_method_len →
  Forall is_token U → length U ≤ max_url_len →
  Forall (λ c, c ≠ CR) V → length V ≤ max_version_len →
  outcome (M ++ tail) (length M) Request_new
  = Returned invalid_headers (record_of M [] [])
  ∧ (M ≠ [] →
     outcome (M ++ SPACE :: U ++ tail) (length M + length U + 1) Request_new
     = Returned invalid_headers (record_of M U []))
  ∧ (M ≠ [] → U ≠ [] →
     outcome (M ++ SPACE :: U ++ SPACE :: V ++ tail)
             (length M + length U + length V + 2) Request_new
     = Returned invalid_headers (record_of M U V)).
Proof.
  intros HMt HMl HUt HUl HVt HVl. unfold outcome. split_and!.
  - destruct (method_read (length M) M HMt HMl _ tail eq_refl) as [log ->];
      [lia|].
    by rewrite run_exit by (simpl; lia).
  - intros HM.
    destruct (url_read (length M + length U + 1) M HM HMt HMl U HUt HUl
                _ tail eq_refl) as [log ->]; [lia|].
    by rewrite run_exit by (simpl; lia).
  - intros HM HU.
    destruct (version_read (length M + length U + length V + 2)
                M HM HMt HMl U HU HUt HUl V HVt HVl _ tail eq_refl)
      as [log ->]; [lia|].
    by rewrite run_exit by (simpl; lia).
Qed.

(** ["GE"], ["GET /"] and ["GET /x HTT"]. *)
Lemma parse_cut_in_request_line_witness :
  outcome (lit "GE") 2 Request_new
  = Returned invalid_headers (record_of (lit "GE") [] [])
  ∧ outcome (lit "GET" ++ SPACE :: lit "/") 5 Request_new
    = Returned invalid_headers (record_of (lit "GET") (lit "/") [])
  ∧ outcome (lit "GET" ++ SPACE :: lit "/x" ++ SPACE :: lit "HTT") 10 Request_new
    = Returned invalid_headers (record_of (lit "GET") (lit "/x") (lit "HTT")).
Proof.
  assert (Forall is_token (lit "GE")) as H1 by by_eval.
  assert (Forall is_token (lit "GET")) as H2 by by_eval.
  assert (Forall is_token (lit "/")) as H3 by by_eval.
  assert (Forall is_token (lit "/x")) as H4 by by_eval.
  assert (Forall (λ c, c ≠ CR) (lit "HTT")) as H5 by by_eval.
  assert (Forall (λ c, c ≠ CR) []) as H6 by by_eval.
  assert (Forall is_token []) as H7 by by_eval.
  split_and!.
  - refine (proj1 (parse_cut_in_request_line (lit "GE") [] [] [] H1 _ H7 _ H6 _));
      by_eval.
  - refine (proj1 (proj2 (parse_cut_in_request_line (lit "GET") (lit "/") [] []
             H2 _ H3 _ H6 _)) _); by_eval || done.
  - refine (proj2 (proj2 (parse_cut_in_request_line (lit "GET") (lit "/x")
             (lit "HTT") [] H2 _ H4 _ H5 _)) _ _); by_eval || done.
Defined.

(** ** [parse]: the header block *)

Lemma header_block_app (ls ls' : list str) :
  header_block (ls ++ ls') = header_block ls ++ header_block ls'.
Proof.
  induction ls as [|l ls IH]; [done|]. simpl. by rewrite IH, <-!app_assoc.
Qed.

(** Lines ended by CRLF and a last line that is not: the same text as the
    lines joined by CRLF. *)
Lemma header_block_join (ls : list str) l :
  header_block ls ++ l = join_tokens CRLF (ls ++ [l]).
Proof.
  induction ls as [|a ls IH]; [done|].
  change ((a :: ls) ++ [l]) with (a :: (ls ++ [l])).
  rewrite join_tokens_cons by (by destruct ls).
  rewrite <-IH. simpl. by rewrite <-!app_assoc.
Qed.

Lemma string_split_block (ls : list str) l :
  Forall (λ l, CR ∉ l) (ls ++ [l]) →
  string_split (header_block ls ++ l) CRLF = Some (ls ++ [l]).
Proof.
  intros Hok. rewrite header_block_join.
  destruct (ls ++ [l]) as [|t ts] eqn:E; [by destruct ls|].
  by rewrite join_tokens_join_crlf, string_split_join.
Qed.

(** Complete lines in the headers state: each is copied with its CRLF,
    provided the byte after the block, if it lies within [len], is not a
    CR. *)
Lemma run_header_block data len (ls : list str) i hs q log rest :
  drop i data = header_block ls ++ rest →
  i + length (header_block ls) ≤ len →
  (i + length (header_block ls) < len → ∃ c rest', rest = c :: rest' ∧ c ≠ CR) →
  Forall (λ l, l ≠ [] ∧ Forall is_text l) ls →
  ∃ log', run data len (Loop.mk i State.headers hs false q) log =
    run data len
      (Loop.mk (i + length (header_block ls)) State.headers
         (hs ++ header_block ls) false q) log'.
Proof.
  revert i hs log.
  induction ls as [|l ls IH]; intros i hs log Hd Hlen Hnext Hok.
  - exists log. simpl. by rewrite Nat.add_0_r, app_nil_r.
  - apply Forall_cons in Hok as [[Hne Hl] Hok].
    simpl in Hd, Hlen, Hnext. rewrite length_app in Hlen, Hnext.
    simpl in Hlen, Hnext. rewrite <-app_assoc in Hd. simpl in Hd.
    destruct (run_headers_chars data len l i hs q log _ Hd) as [log1 ->];
      [lia|done|].
    apply drop_skip in Hd.
    rewrite run_unfold by (simpl; done || lia).
    assert (∃ log2,
      step data len (Loop.mk (i + length l) State.headers (hs ++ l) false q) log1
      = (Some (Continue (Loop.mk (i + length l + 2) State.headers
                           ((hs ++ l) ++ CRLF) false q)), log2)) as [log2 ->].
    { destruct (decide (i + length l + 2 < len)) as [Hlt|Hge].
      - assert (∃ c t, header_block ls ++ rest = c :: t ∧ c ≠ CR)
          as (c & t & Ec & Hc).
        { destruct ls as [|l2 ls].
          - simpl in *. destruct Hnext as (c & t & -> & ?); [lia|]. eauto.
          - apply Forall_cons in Hok as [[Hne2 Hl2] _].
            destruct l2 as [|c2 l2]; [done|].
            apply Forall_cons in Hl2 as [[? _] _]. simpl. eauto. }
        rewrite Ec in Hd. eexists.
        apply (step_headers_eol _ _ _ _ _ _ _ c); try done.
        + by eapply string_at_drop.
        + by eapply (string_at_drop_lookup _ _ _ 1).
        + by eapply (string_at_drop_lookup _ _ _ 2).
      - eexists. apply step_headers_eol_end; try lia.
        + by eapply string_at_drop.
        + by eapply (string_at_drop_lookup _ _ _ 1). }
    apply drop_next, drop_next in Hd.
    destruct (IH (i + length l + 2) ((hs ++ l) ++ CRLF) log2) as [log' ->].
    + replace (i + length l + 2) with (i + length l + 1 + 1) by lia. done.
    + lia.
    + intros ?. apply Hnext. lia.
    + done.
    + exists log'. simpl. rewrite length_app. simpl.
      replace (i + length l + 2 + length (header_block ls))
        with (i + (length l + S (S (length (header_block ls))))) by lia.
      by rewrite <-!app_assoc.
Qed.

(** A valid request line and complete header lines: where the loop is
    after them. *)
Lemma parse_header_block (M U V : str) (ls : list str) rest data len :
  valid_method M → valid_url U → valid_version V →
  Forall (λ l, l ≠ [] ∧ Forall is_text l) ls →
  data = M ++ SPACE :: U ++ SPACE :: V ++ CR :: LF :: header_block ls ++ rest →
  length M + length U + length V + 4 + length (header_block ls) ≤ len →
  (length M + length U + length V + 4 + length (header_block ls) < len →
   ∃ c rest', rest = c :: rest' ∧ c ≠ CR) →
  ∃ log, parse data len Request_new =
    run data len
      (Loop.mk (length M + length U + length V + 4 + length (header_block ls))
         State.headers (header_block ls) false (record_of M U V)) log.
Proof.
  intros (HM & HMt & HMl) (HU & HUt & HUl) (HV & HVt & HVl) Hok Hd Hlen Hnext.
  destruct (version_left len M HM HMt HMl U HU HUt HUl V HV HVt HVl data
              (header_block ls ++ rest) Hd) as [log ->]; [lia|].
  unfold record_of.
  destruct (run_header_block data len ls (length M + length U + length V + 4)
              [] {| method := M; url := U; version := V; headers := ∅ |}
              log rest) as [log' ->]; try done; [|eauto].
  drop_after Hd (M ++ SPACE :: U ++ SPACE :: V ++ CRLF).
Qed.

Lemma framed_not_CR (ls : list str) :
  Forall (λ l, l ≠ [] ∧ Forall is_text l) ls → Forall (λ l, CR ∉ l) ls.
Proof.
  intros H. eapply Forall_impl; [done|]. intros ? [_ ?]. by apply text_not_CR.
Qed.

(** X21: an LF that is not preceded by CR, met in the header block after
    any number of complete lines and any bytes of the current line, is
    rejected with [invalid_headers]; the record holds the three tokens and
    no header. *)
Theorem parse_lone_lf_in_headers (M U V : str) (ls : list str) (l tail : str) len :
  valid_method M → valid_url U → valid_version V →
  Forall (λ l, l ≠ [] ∧ Forall is_text l) ls → Forall is_text l →
  length M + length U + length V + 4 + length (header_block ls) + length l < len →
  outcome (M ++ SPACE :: U ++ SPACE :: V ++ CR :: LF
             :: header_block ls ++ l ++ LF :: tail) len Request_new
  = Returned invalid_headers (record_of M U V).
Proof.
  intros HM HU HV Hok Hl Hlen. unfold outcome.
  set (data := M ++ _).
  destruct (parse_header_block M U V ls (l ++ LF :: tail) data len)
    as [log ->]; try done; [lia| |].
  { intros _. destruct l as [|c l]; simpl; [by eauto|].
    apply Forall_cons in Hl as [[? _] _]. eauto. }
  assert (drop (length M + length U + length V + 4 + length (header_block ls)) data
          = l ++ LF :: tail) as Hd.
  { apply (drop_prefix _
      (M ++ SPACE :: U ++ SPACE :: V ++ CR :: LF :: header_block ls));
      [unfold data; by repeat (rewrite <-app_assoc; simpl)
      |repeat (rewrite length_app; simpl); simpl; lia]. }
  destruct (run_headers_chars data len l _ (header_block ls) (record_of M U V)
              log _ Hd) as [log' ->]; [lia|done|].
  apply drop_skip in Hd.
  rewrite run_unfold by (simpl; done || lia).
  rewrite step_headers_lf; [done|by eapply string_at_drop].
Qed.

(** The second header line ends with a bare LF. *)
Lemma parse_lone_lf_in_headers_witness :
  outcome (lit "GET" ++ SPACE :: lit "/x" ++ SPACE :: lit "HTTP/1.1" ++ CR :: LF
             :: header_block [lit "A: 1"] ++ lit "B: 2" ++ LF :: CRLF)
          30 Request_new
  = Returned invalid_headers (record_of (lit "GET") (lit "/x") (lit "HTTP/1.1")).
Proof.
  apply (parse_lone_lf_in_headers (lit "GET") (lit "/x") (lit "HTTP/1.1")
           [lit "A: 1"] (lit "B: 2") CRLF 30);
    try (split_and!; done || by_eval); by_eval.
Defined.

(** X22: a CR in a header line that is the last byte within [len], or is
    followed by a byte other than LF, is rejected with [invalid_format]. *)
Theorem parse_stray_cr_in_headers (M U V : str) (ls : list str) (l tail : str) x len :
  valid_method M → valid_url U → valid_version V →
  Forall (λ l, l ≠ [] ∧ Forall is_text l) ls → l ≠ [] → Forall is_text l →
  let n := length M + length U + length V + 4 + length (header_block ls)
           + length l in
  let head := M ++ SPACE :: U ++ SPACE :: V ++ CR :: LF
                :: header_block ls ++ l in
  outcome (head ++ CR :: tail) (n + 1) Request_new
  = Returned invalid_format (record_of M U V)
  ∧ (x ≠ LF → n + 1 < len →
     outcome (head ++ CR :: x :: tail) len Request_new
     = Returned invalid_format (record_of M U V)).
Proof.
  intros HM HU HV Hok Hne Hl n head.
  assert (∀ tl len', n < len' →
    ∃ log, parse (head ++ CR :: tl) len' Request_new =
      run (head ++ CR :: tl) len'
        (Loop.mk n State.headers (header_block ls ++ l) false (record_of M U V)) log
      ∧ drop n (head ++ CR :: tl) = CR :: tl) as Hrun.
  { intros tl len' Hlen'.
    set (data := head ++ CR :: tl).
    destruct (parse_header_block M U V ls (l ++ CR :: tl) data len')
      as [log ->]; try done.
    { unfold data, head. by repeat (rewrite <-app_assoc; simpl). }
    { unfold n in Hlen'. lia. }
    { intros _. destruct l as [|c l]; [done|]. simpl.
      apply Forall_cons in Hl as [[? _] _]. eauto. }
    assert (drop (length M + length U + length V + 4 + length (header_block ls))
              data = l ++ CR :: tl) as Hd.
    { apply (drop_prefix _
        (M ++ SPACE :: U ++ SPACE :: V ++ CR :: LF :: header_block ls));
        [unfold data, head; by repeat (rewrite <-app_assoc; simpl)
        |repeat (rewrite length_app; simpl); simpl; lia]. }
    destruct (run_headers_chars data len' l _ (header_block ls) (record_of M U V)
                log _ Hd) as [log' ->]; [unfold n in Hlen'; lia|done|].
    apply drop_skip in Hd. exists log'. by fold n in Hd |- *. }
  unfold outcome. split.
  - destruct (Hrun tail (n + 1)) as (log & -> & Hd); [lia|].
    rewrite run_unfold by (simpl; done || lia).
    rewrite step_headers_cr_end; [done|by eapply string_at_drop|simpl; lia].
  - intros Hx Hlen.
    destruct (Hrun (x :: tail) len) as (log & -> & Hd); [lia|].
    rewrite run_unfold by (simpl; done || lia).
    rewrite (step_headers_cr_other _ _ _ _ _ _ _ x); [done| | |done|lia].
    + by eapply string_at_drop.
    + by eapply (string_at_drop_lookup _ _ _ 1).
Qed.

(** ["Host: a\r"] at the end of the input, and ["Host: a\rX"]. *)
Lemma parse_stray_cr_in_headers_witness :
  let head := lit "GET" ++ SPACE :: lit "/x" ++ SPACE :: lit "HTTP/1.1"
                ++ CR :: LF :: header_block [] ++ lit "Host: a" in
  outcome (head ++ CR :: []) 25 Request_new
  = Returned invalid_format (record_of (lit "GET") (lit "/x") (lit "HTTP/1.1"))
  ∧ outcome (head ++ CR :: "X"%char :: []) 26 Request_new
    = Returned invalid_format (record_of (lit "GET") (lit "/x") (lit "HTTP/1.1")).
Proof.
  intros head.
  assert (valid_method (lit "GET")) as HM by (split_and!; done || by_eval).
  assert (valid_url (lit "/x")) as HU by (split_and!; done || by_eval).
  assert (valid_version (lit "HTTP/1.1")) as HV by (split_and!; done || by_eval).
  assert (Forall is_text (lit "Host: a")) as Hl by by_eval.
  destruct (parse_stray_cr_in_headers (lit "GET") (lit "/x") (lit "HTTP/1.1")
              [] (lit "Host: a") [] "X"%char 26 HM HU HV (Forall_nil_2 _)
              ltac:(done) Hl) as [H1 H2].
  split; [exact H1|]. apply H2; [done|by_eval].
Defined.

(** X23: the blank line is not needed when the buffer ends right after the
    last header line: a well-formed request line, complete header lines
    [KEY ": " VALUE CRLF] and a last line [KEY ": " VALUE] with no CRLF
    after it are accepted, with all the lines in the map. *)
Theorem parse_without_final_crlf (M U V : str) (hs : list (str * str)) kv :
  valid_method M → valid_url U → valid_version V →
  Forall header_ok (hs ++ [kv]) →
  let data := M ++ SPACE :: U ++ SPACE :: V ++ CR :: LF
                :: header_block (header_line <$> hs) ++ header_line kv in
  outcome data (length data) Request_new
  = Returned success
      {| method := M; url := U; version := V;
         headers := list_to_map (hs ++ [kv]) |}.
Proof.
  intros HM HU HV Hok data. unfold outcome.
  assert (Forall (λ l, l ≠ [] ∧ Forall is_text l) (header_line <$> hs ++ [kv]))
    as Hframed.
  { apply Forall_fmap. eapply Forall_impl; [done|].
    intros ?. apply header_line_framed. }
  rewrite fmap_app in Hframed. apply Forall_app in Hframed as [Hls Hl].
  apply Forall_singleton in Hl as [Hne Hl].
  set (ls := header_line <$> hs) in *. set (l := header_line kv) in *.
  assert (length data =
    length M + length U + length V + 4 + length (header_block ls) + length l)
    as Hlen.
  { unfold data. repeat (rewrite length_app; simpl). lia. }
  destruct (parse_header_block M U V ls l data (length data))
    as [log ->]; try done; [lia| |].
  { intros _. destruct l as [|c l']; [done|].
    apply Forall_cons in Hl as [[? _] _]. eauto. }
  assert (drop (length M + length U + length V + 4 + length (header_block ls)) data
          = l ++ []) as Hd.
  { rewrite app_nil_r. apply (drop_prefix _
      (M ++ SPACE :: U ++ SPACE :: V ++ CR :: LF :: header_block ls));
      [unfold data; by repeat (rewrite <-app_assoc; simpl)
      |repeat (rewrite length_app; simpl); simpl; lia]. }
  destruct (run_headers_chars data (length data) l _ (header_block ls)
              (record_of M U V) log _ Hd) as [log' ->]; [lia|done|].
  rewrite run_exit by (simpl; lia).
  unfold finish, split_headers. cbn [Loop.headers Loop.req fst].
  rewrite string_split_block.
  - cbn [mbind option_bind]. unfold ls, l.
    change [header_line kv] with (header_line <$> [kv]).
    rewrite <-fmap_app, split_headers_loop_lines.
    + simpl. by rewrite (left_id_L ∅ (∪)).
    + eapply Forall_impl; [done|]. by intros ? (_ & _ & ?).
  - apply framed_not_CR, Forall_app. split; [done|]. by apply Forall_singleton.
Qed.

(** ["GET /x HTTP/1.1\r\nA: 1\r\nB: 2"]. *)
Lemma parse_without_final_crlf_witness :
  let data := lit "GET" ++ SPACE :: lit "/x" ++ SPACE :: lit "HTTP/1.1"
                ++ CR :: LF
                :: header_block (header_line <$> [(lit "A", lit "1")])
                ++ header_line (lit "B", lit "2") in
  outcome data (length data) Request_new
  = Returned success
      {| method := lit "GET"; url := lit "/x"; version := lit "HTTP/1.1";
         headers := list_to_map ([(lit "A", lit "1")] ++ [(lit "B", lit "2")]) |}.
Proof.
  apply (parse_without_final_crlf (lit "GET") (lit "/x") (lit "HTTP/1.1")
           [(lit "A", lit "1")] (lit "B", lit "2"));
    try (split_and!; done || by_eval).
  repeat constructor; simpl; try by_eval; apply find0_None_iff; reflexivity.
Defined.

(** X24: when the buffer ends with the CRLF of the last header line (or of
    the request line) and no blank line follows, the call returns
    [invalid_headers], whatever the lines are: the header text then ends
    with CRLF and its last token is empty. *)
Theorem parse_missing_blank_line (M U V : str) (ls : list str) :
  valid_method M → valid_url U → valid_version V →
  Forall (λ l, l ≠ [] ∧ Forall is_text l) ls →
  let data := M ++ SPACE :: U ++ SPACE :: V ++ CR :: LF :: header_block ls in
  ∃ q, outcome data (length data) Request_new = Returned invalid_headers q.
Proof.
  intros HM HU HV Hok data. unfold outcome.
  assert (length data =
    length M + length U + length V + 4 + length (header_block ls)) as Hlen.
  { unfold data. repeat (rewrite length_app; simpl). lia. }
  destruct (parse_header_block M U V ls [] data (length data))
    as [log ->]; try done; [by rewrite app_nil_r|lia|lia|].
  rewrite run_exit by (simpl; lia).
  unfold finish, split_headers. cbn [Loop.headers Loop.req fst].
  rewrite <-(app_nil_r (header_block ls)), string_split_block.
  - cbn [mbind option_bind].
    pose proof (split_headers_loop_bad (ls ++ [[]]) (record_of M U V)) as Hb.
    destruct (split_headers_loop _ _) as [[] q]; [|by exists q].
    discriminate Hb. apply Exists_app. right. apply Exists_cons_hd.
    apply find0_None_iff. reflexivity.
  - apply Forall_app. split; [by apply framed_not_CR|].
    apply Forall_singleton. by intros ?%elem_of_nil.
Qed.

(** ["GET /x HTTP/1.1\r\nHost: a\r\n"]. *)
Lemma parse_missing_blank_line_witness :
  let data := lit "GET" ++ SPACE :: lit "/x" ++ SPACE :: lit "HTTP/1.1"
                ++ CR :: LF :: header_block [lit "Host: a"] in
  ∃ q, outcome data (length data) Request_new = Returned invalid_headers q.
Proof.
  apply (parse_missing_blank_line (lit "GET") (lit "/x") (lit "HTTP/1.1")
           [lit "Host: a"]);
    try (split_and!; done || by_eval).
  by_eval.
Defined.



(** ** [parse] on a record that is not fresh *)

(** [run_request_line] for any record: the tokens are appended to what the
    record holds, and the limits count what it holds. *)
Lemma run_request_line_from data len (M U V rest : str) q0 log :
  data = M ++ [SPACE] ++ U ++ [SPACE] ++ V ++ CRLF ++ rest →
  length M + length U + length V + 4 ≤ len →
  M ≠ [] → Forall is_token M → length (method q0) + length M ≤ max_method_len →
  U ≠ [] → Forall is_token U → length (url q0) + length U ≤ max_url_len →
  V ≠ [] → Forall (λ c, c ≠ CR) V →
  length (version q0) + length V ≤ max_version_len →
  ∃ log', run data len (init q0) log =
    run data len
      (Loop.mk (length M + length U + length V + 4) State.headers [] false
         {| method := method q0 ++ M; url := url q0 ++ U;
            version := version q0 ++ V; headers := headers q0 |}) log'.
Proof.
  intros Hdata Hlen HM HMt HMl HU HUt HUl HV HVt HVl.
  unfold init.
  destruct (run_method_chars data len M 0 [] q0 log
              ([SPACE] ++ U ++ [SPACE] ++ V ++ CRLF ++ rest))
    as [log1 ->]; [by rewrite Hdata|lia|done|done|].
  simpl.
  rewrite run_unfold by (simpl; done || lia).
  rewrite step_method_space; simpl;
    [|at_pos_in Hdata M|by intros [_ ?]%app_eq_nil].
  destruct (run_url_chars data len U (length M + 1) []
              {| method := method q0 ++ M; url := url q0;
                 version := version q0; headers := headers q0 |}
              (log1 ++ [length M]) ([SPACE] ++ V ++ CRLF ++ rest))
    as [log2 ->]; [drop_after Hdata (M ++ [SPACE])|lia|done|done|].
  simpl.
  rewrite run_unfold by (simpl; done || lia).
  rewrite step_url_space; simpl;
    [|at_pos_in Hdata (M ++ SPACE :: U)|by intros [_ ?]%app_eq_nil].
  destruct (run_version_chars data len V (length M + 1 + length U + 1) []
              {| method := method q0 ++ M; url := url q0 ++ U;
                 version := version q0; headers := headers q0 |}
              (log2 ++ [length M + 1 + length U]) (CRLF ++ rest))
    as [log3 ->];
    [drop_after Hdata (M ++ SPACE :: U ++ [SPACE])|lia|done|done|].
  simpl.
  rewrite run_unfold by (simpl; done || lia).
  rewrite step_version_crlf; simpl;
    [|at_pos_in Hdata (M ++ SPACE :: U ++ SPACE :: V)
     |at_pos_in Hdata (M ++ SPACE :: U ++ SPACE :: V ++ [CR])
     |lia|by intros [_ ?]%app_eq_nil].
  eexists.
  by replace (length M + 1 + length U + 1 + length V + 2)
    with (length M + length U + length V + 4) by lia.
Qed.

(** X26: [parse] does not reset the record it is given.  On a record that
    already holds a method, url, version or headers, a well-formed request
    whose tokens still fit the limits together with what the record holds
    succeeds with the tokens appended to the old strings, and the old
    header entries win over the new lines. *)
Theorem parse_on_used_record (M U V : str) (hs : list (str * str)) q0 :
  M ≠ [] → Forall is_token M → length (method q0) + length M ≤ max_method_len →
  U ≠ [] → Forall is_token U → length (url q0) + length U ≤ max_url_len →
  V ≠ [] → Forall (λ c, c ≠ CR) V →
  length (version q0) + length V ≤ max_version_len →
  hs ≠ [] → Forall header_ok hs →
  outcome (request M U V (header_line <$> hs))
          (length (request M U V (header_line <$> hs))) q0
  = Returned success
      {| method := method q0 ++ M; url := url q0 ++ U;
         version := version q0 ++ V;
         headers := headers q0 ∪ list_to_map hs |}.
Proof.
  intros HM HMt HMl HU HUt HUl HV HVt HVl Hne Hok.
  assert (Forall (λ l, l ≠ [] ∧ Forall is_text l) (header_line <$> hs))
    as Hframed.
  { apply Forall_fmap. eapply Forall_impl; [done|].
    intros ?. apply header_line_framed. }
  assert (Forall (λ kv, ¬ contains kv.1 SEP) hs) as Hsep.
  { eapply Forall_impl; [done|]. by intros ? (_ & _ & ?). }
  destruct (header_line <$> hs) as [|l ls] eqn:Els; [by destruct hs|].
  set (data := request M U V (l :: ls)).
  pose proof (length_request M U V (l :: ls)) as Hlen. fold data in Hlen.
  unfold outcome. rewrite parse_run.
  destruct (run_request_line_from data (length data) M U V
              (header_block (l :: ls) ++ CRLF) q0 []) as [log1 ->];
    try done; [lia|].
  destruct (run_header_lines data (length data) ls l
              (length M + length U + length V + 4) []
              {| method := method q0 ++ M; url := url q0 ++ U;
                 version := version q0 ++ V; headers := headers q0 |}
              log1 []) as (j & log2 & ->); [|lia|done|].
  { apply (drop_prefix _ (M ++ [SPACE] ++ U ++ [SPACE] ++ V ++ CRLF));
      [unfold data, request; by repeat (rewrite <-app_assoc; simpl)
      |repeat (rewrite length_app; simpl); simpl; lia]. }
  unfold finish, split_headers. cbn [Loop.headers Loop.req fst app].
  rewrite string_split_join by (by apply framed_not_CR).
  cbn [mbind option_bind]. by rewrite <-Els, split_headers_loop_lines.
Qed.

(** The sample request parsed into the record of an earlier call on a
    request with method [PUT] and the header [Host: old]. *)
Lemma parse_on_used_record_witness :
  let q0 := {| method := lit "PUT"; url := lit "/y"; version := lit "HTTP/1.0";
               headers := {[ lit "Host" := lit "old" ]} |} in
  outcome sample_ok (length sample_ok) q0
  = Returned success
      {| method := lit "PUTGET"; url := lit "/y/x";
         version := lit "HTTP/1.0HTTP/1.1";
         headers := {[ lit "Host" := lit "old" ]}
                    ∪ list_to_map [(lit "Host", lit "example.com")] |}.
Proof.
  intros q0.
  apply (parse_on_used_record (lit "GET") (lit "/x") (lit "HTTP/1.1")
           [(lit "Host", lit "example.com")] q0);
    try done; try by_eval.
  repeat constructor; simpl; try by_eval; apply find0_None_iff; reflexivity.
Defined.

(** ** [parse]: the entries of the header map *)

Lemma step_headers_req data len st log st' log' :
  step data len st log = (Some (Continue st'), log') →
  headers (Loop.req st') = headers (Loop.req st).
Proof. intros Hs. destruct st as [i state hs stop q]. by step_cases. Qed.

Lemma step_Text data len st log st' log' :
  step data len st log = (Some (Continue st'), log') →
  Text (Loop.headers st) → Text (Loop.headers st').
Proof.
  intros Hs. destruct st as [i state hs stop q].
  step_cases; step_facts; try done; intros (ts & cur & -> & Hts & Hcur);
    first
      [ exists (ts ++ [cur]), []; split_and!;
        [ rewrite header_block_app; simpl; by rewrite <-!app_assoc
        | apply Forall_app; split; [done|]; by apply Forall_singleton
        | done ]
      | eexists ts, (cur ++ [_]); split_and!;
        [ by rewrite <-app_assoc
        | done
        | apply Forall_app; split; [done|]; by apply Forall_singleton ] ].
Qed.

Lemma emplace_entries_ok (k v : str) (m : gmap str str) :
  Forall is_text k → Forall is_text v → ¬ contains k SEP →
  entries_ok m → entries_ok (emplace k v m).
Proof.
  intros Hk Hv Hsep Hm. unfold emplace.
  destruct (m !! k) eqn:E; [done|].
  intros k' v'. destruct (decide (k = k')) as [<-|Hne].
  - rewrite lookup_insert_eq. by intros [= <-].
  - rewrite lookup_insert_ne by done. apply Hm.
Qed.

Lemma split_headers_loop_entries (tokens : list str) q :
  Forall (Forall is_text) tokens → entries_ok (headers q) →
  entries_ok (headers (split_headers_loop tokens q).2).
Proof.
  revert q. induction tokens as [|t tokens IH]; intros q Htok Hq; [done|].
  apply Forall_cons in Htok as [Ht Htok]. simpl. rewrite find_0.
  destruct (find0 SEP t) as [p|] eqn:E; [|done].
  apply IH; [done|]. simpl. unfold substr, substr_from. rewrite drop_0.
  apply emplace_entries_ok; try done.
  - by apply Forall_take.
  - by apply Forall_drop.
  - by apply find0_take_free.
Qed.

Lemma run_entries_ok data len st log r q :
  Text (Loop.headers st) → entries_ok (headers (Loop.req st)) →
  (run data len st log).1 = Returned r q → entries_ok (headers q).
Proof.
  revert st log.
  apply (run_ind data len
    (λ st _ o, Text (Loop.headers st) → entries_ok (headers (Loop.req st)) →
               o.1 = Returned r q → entries_ok (headers q)));
    simpl; try done.
  - intros st log _ (ts & cur & Hhs & Hts & Hcur) Hq Hf.
    apply finish_inv in Hf as (tokens & b & Hsplit & Hloop & _).
    assert (Forall (Forall is_text) (ts ++ [cur])) as Hall.
    { apply Forall_app. split; [done|]. by apply Forall_singleton. }
    rewrite Hhs, string_split_block in Hsplit.
    + injection Hsplit as <-.
      pose proof (split_headers_loop_entries (ts ++ [cur]) (Loop.req st)
                    Hall Hq) as Hres.
      by rewrite Hloop in Hres.
    + eapply Forall_impl; [exact Hall|]. intros ?. apply text_not_CR.
  - intros st log r' q' log' _ _ Hs _ Hq [= -> ->].
    by rewrite (step_return_req _ _ _ _ _ _ _ Hs).
  - intros st log st' log' _ _ Hs IH HT Hq. apply IH.
    + by eapply step_Text.
    + by rewrite (step_headers_req _ _ _ _ _ _ Hs).
Qed.

(** X27: whatever [parse] returns, no key or value of the header map of
    the record contains CR or LF and no key contains [": "], provided
    this held on entry (a fresh record has no entries). *)
Theorem parse_header_entries data len req r q :
  entries_ok (headers req) →
  outcome data len req = Returned r q → entries_ok (headers q).
Proof.
  intros Hq. unfold outcome. rewrite parse_run.
  apply (run_entries_ok data len (init req)); [|done].
  exists [], []. by split_and!.
Qed.

(** The map of the request whose key is given as [a: b]. *)
Lemma parse_header_entries_witness :
  let q := {| method := lit "GET"; url := lit "/x"; version := lit "HTTP/1.1";
              headers := {[ lit "a" := lit "b: c" ]} |} in
  entries_ok (headers Request_new)
  ∧ outcome sample_sep_in_key (length sample_sep_in_key) Request_new
    = Returned success q
  ∧ entries_ok (headers q).
Proof.
  intros q.
  assert (entries_ok (headers Request_new)) as Hnew by (by intros k v).
  assert (outcome sample_sep_in_key (length sample_sep_in_key) Request_new
          = Returned success q) as Hout by (by vm_compute).
  split_and!; [done..|].
  exact (parse_header_entries sample_sep_in_key (length sample_sep_in_key)
           Request_new success q Hnew Hout).
Defined.

(** ** [parse]: the number of reads *)

Lemma step_reads_count data len st log x log' :
  step data len st log = (x, log') → length log' ≤ length log + 4.
Proof.
  intros Hs. destruct st as [i state hs stop q].
  step_cases; rewrite ?length_app; simpl; lia.
Qed.

Lemma run_reads_count data len st log :
  length (run data len st log).2
  ≤ length log + (if Loop.stop st then 0 else 4 * (len - Loop.i st)).
Proof.
  revert st log.
  apply (run_ind data len
    (λ st log o, length o.2
       ≤ length log + (if Loop.stop st then 0 else 4 * (len - Loop.i st))));
    simpl.
  - intros st log _. lia.
  - intros st log log' Hi -> Hs. apply step_reads_count in Hs. lia.
  - intros st log r q log' Hi -> Hs. apply step_reads_count in Hs. lia.
  - intros st log st' log' Hi Hstop Hs IH. rewrite Hstop.
    pose proof (step_reads_count _ _ _ _ _ _ Hs).
    destruct (step_progress _ _ _ _ _ _ Hs Hi) as [? [[? Hst]|Hst]];
      rewrite Hst in IH; [rewrite Hstop in IH|]; lia.
Qed.

(** X28: [parse] reads the buffer at most [4 * len] times: each iteration
    reads at most four bytes and, unless it ends the loop, moves the index
    forward. *)
Theorem parse_reads_linear data len req :
  length (reads data len req) ≤ 4 * len.
Proof.
  unfold reads. rewrite parse_run.
  pose proof (run_reads_count data len (init req) []) as H. simpl in H. lia.
Qed.

(** * The record after an error return *)

(** ** The tokens written from the input *)










(** ** The loop builds the record from the bytes it consumes *)
















